(** * gonkey, package [cmd_runner]: the capturing pass-through writer and
    the deadline-bound script runner [CmdRun].

    The Go code is embedded shallowly.  A byte slice is a [list byte], a Go
    string a [string], a Go [int] a [Z] with the 64-bit wrap-around written
    out where the code computes.  A Go [error] is an [option error] ([None]
    is [nil]).

    [CmdRun] talks to the operating system and runs a second goroutine.
    The answers of the operating system, the bytes the child writes and the
    case of the [select] that runs are the fields of a [World]; [CmdRun] is
    a function of the world, the script path and the timeout.  Its result,
    a [Run], holds the value returned, the two local writers, and the calls
    made by the calling goroutine in program order, so that what is called
    before what can be stated.

    The goroutine writes [errStdout] and the caller reads it without
    synchronisation when the timer case runs; the flag of [DeadlineFirst]
    says whether the write has happened by then.  A nil pipe reader makes
    [io.Copy] panic; when the goroutine panics the trace stops at the [go]
    statement, how much further the caller gets by then being up to the
    scheduler.  [fmt.Printf] is recorded in the trace and kept apart from
    the bytes forwarded to [os.Stdout].

    The text helpers of package [allure_report] and the dot counter of
    package [console_colored] follow.  A Go map is the list of its entries
    in the order a [range] visits them; what does not depend on that order
    is proved for every order. *)

From Stdlib Require Import ZArith List String Ascii Bool Lia.
From Stdlib Require Import DecimalString.
Import ListNotations.

Local Open Scope string_scope.
Local Open Scope list_scope.
Local Open Scope Z_scope.

Set Implicit Arguments.

(** ** The pieces of Go's standard library the package calls *)

Module Go.

(** Values of the [error] interface.  The three sentinels of package [io]
    are compared by identity in [io.Copy]; every other error reaching the
    package comes from [os/exec], [syscall] or a destination writer and is
    only passed on or printed with [%v]. *)
Inductive error : Type :=
| io_EOF
| io_ErrShortWrite
| io_errInvalidWrite
| os_error (msg : string)
| fmt_Errorf (msg : string).

(** [err.Error()]. *)
Definition Error (e : error) : string :=
  match e with
  | io_EOF => "EOF"
  | io_ErrShortWrite => "short write"
  | io_errInvalidWrite => "invalid write result"
  | os_error msg => msg
  | fmt_Errorf msg => msg
  end.

Definition bytes := list Byte.byte.

(** [len(p)] as a Go [int]. *)
Definition len (p : bytes) : Z := Z.of_nat (List.length p).

(** The [io.Writer] interface: [Write(p) (n int, err error)], with the
    receiver's state passed explicitly. *)
Class io_Writer (W : Type) : Type :=
  Write : W -> bytes -> W * (Z * option error).

(** [bytes.Buffer]: [Write] appends and its error is always nil (running
    out of memory is not modelled); [Bytes] is the unread content. *)
Definition bytes_Buffer := bytes.

Definition Buffer_Write (b : bytes_Buffer) (p : bytes)
  : bytes_Buffer * (Z * option error) :=
  (b ++ p, (len p, None)).

Definition Buffer_Bytes (b : bytes_Buffer) : bytes := b.

(** One call of [Read] on an [io.Reader]: the bytes it delivered and its
    error.  A reader is the list of the results its successive calls
    give; once the list is used up, [Read] gives [(0, io.EOF)]. *)
Definition ReadResult : Type := bytes * option error.
Definition Reader : Type := list ReadResult.

(** [io.Copy(dst, src)], the generic loop of [io.copyBuffer] ([src] has
    no [WriteTo], [dst] no [ReadFrom]).  A nil [src] is dereferenced by
    the first [src.Read] and panics: the result is [None]. *)
Section Copy.
Context {W : Type} {HW : io_Writer W}.

Fixpoint copyBuffer (dst : W) (src : Reader) (written : Z)
  : W * (Z * option error) :=
  match src with
  | [] => (dst, (written, None))
  | (p, er) :: rest =>
      let nr := len p in
      let after_read (dst : W) (written : Z) :=
        match er with
        | Some io_EOF => (dst, (written, None))
        | Some e => (dst, (written, Some e))
        | None => copyBuffer dst rest written
        end in
      if 0 <? nr then
        let '(dst, (nw, ew)) := Write dst p in
        let '(nw, ew) :=
          if (nw <? 0) || (nr <? nw)
          then (0, match ew with
                   | None => Some io_errInvalidWrite
                   | Some e => Some e
                   end)
          else (nw, ew) in
        let written := written + nw in
        match ew with
        | Some e => (dst, (written, Some e))
        | None =>
            if negb (nr =? nw)
            then (dst, (written, Some io_ErrShortWrite))
            else after_read dst written
        end
      else after_read dst written
  end.

Definition io_Copy (dst : W) (src : option Reader)
  : option (W * (Z * option error)) :=
  match src with
  | None => None
  | Some r => Some (copyBuffer dst r 0)
  end.
End Copy.

(** [strings.TrimRight(s, cutset)] for a cutset of ASCII bytes: the
    longest prefix of [s] whose last byte is not in [cutset]. *)
Fixpoint in_cutset (c : ascii) (cutset : string) : bool :=
  match cutset with
  | EmptyString => false
  | String k rest => Ascii.eqb c k || in_cutset c rest
  end.

Fixpoint strings_TrimRight (s cutset : string) : string :=
  match s with
  | EmptyString => EmptyString
  | String c rest =>
      match strings_TrimRight rest cutset with
      | EmptyString =>
          if in_cutset c cutset then EmptyString else String c EmptyString
      | kept => String c kept
      end
  end.

(** A Go [int] is 64 bits wide on the platforms the package builds for. *)
Definition wrap64 (z : Z) : Z := (z + 2 ^ 63) mod 2 ^ 64 - 2 ^ 63.

(** The [%d] verb of package [fmt]. *)
Definition fmt_d (z : Z) : string := NilZero.string_of_int (Z.to_int z).

End Go.

Import Go.

(** ** [CapturingPassThroughWriter] *)

(** The two calls the body of [Write] makes. *)
Inductive SinkCall : Type :=
| buf_Write (d : bytes)
| w_Write (d : bytes).

Section Sink.
Context {W : Type} {HW : io_Writer W}.

Record CapturingPassThroughWriter : Type := {
  buf : bytes_Buffer;
  w : W
}.

Definition NewCapturingPassThroughWriter (dst : W)
  : CapturingPassThroughWriter :=
  {| buf := []; w := dst |}.

(** [Write]: [w.buf.Write(d)], whose result is dropped, then
    [return w.w.Write(d)].  The third component lists the calls made,
    in program order. *)
Definition CapturingPassThroughWriter_Write
    (cw : CapturingPassThroughWriter) (d : bytes)
  : CapturingPassThroughWriter * (Z * option error) * list SinkCall :=
  let '(b, _) := Buffer_Write (buf cw) d in
  let '(dst, r) := Write (w cw) d in
  ({| buf := b; w := dst |}, r, [buf_Write d; w_Write d]).

Definition CapturingPassThroughWriter_Bytes
    (cw : CapturingPassThroughWriter) : bytes :=
  Buffer_Bytes (buf cw).

(** The writer is itself an [io.Writer]; this is how [io.Copy] uses it. *)
#[export] Instance CapturingPassThroughWriter_io_Writer
  : io_Writer CapturingPassThroughWriter :=
  fun cw d => fst (CapturingPassThroughWriter_Write cw d).

(** A finite sequence of [Write] calls: the final writer and every
    call made on the way. *)
Fixpoint write_all (cw : CapturingPassThroughWriter) (ds : list bytes)
  : CapturingPassThroughWriter * list SinkCall :=
  match ds with
  | [] => (cw, [])
  | d :: rest =>
      let '(cw1, _, calls) := CapturingPassThroughWriter_Write cw d in
      let '(cw2, more) := write_all cw1 rest in
      (cw2, calls ++ more)
  end.
End Sink.

Arguments CapturingPassThroughWriter W : clear implicits.

(** The payloads handed to the destination, in call order. *)
Fixpoint forwarded (calls : list SinkCall) : list bytes :=
  match calls with
  | [] => []
  | w_Write d :: rest => d :: forwarded rest
  | buf_Write _ :: rest => forwarded rest
  end.

(** The payloads appended to the private buffer, in call order. *)
Fixpoint buffered (calls : list SinkCall) : list bytes :=
  match calls with
  | [] => []
  | buf_Write d :: rest => d :: buffered rest
  | w_Write _ :: rest => buffered rest
  end.

(** The same slices written straight to the destination. *)
Fixpoint write_direct {W : Type} {HW : io_Writer W} (dst : W) (ds : list bytes) : W :=
  match ds with
  | [] => dst
  | d :: rest => write_direct (fst (Write dst d)) rest
  end.

(** ** [CmdRun] *)

(** The fields of [syscall.SysProcAttr] and [exec.Cmd] the runner sets.
    Whether [Path] needs a lookup in [$PATH] is the operating system's
    business at [Start]. *)
Record SysProcAttr : Type := {
  Setpgid : bool
}.

Record Cmd : Type := {
  Path : string;
  Args : list string;
  Env : list string;
  Attr : option SysProcAttr
}.

(** [exec.Command(name)] with no further arguments. *)
Definition exec_Command (name : string) : Cmd :=
  {| Path := name; Args := [name]; Env := []; Attr := None |}.

(** Which case of the [select] statement runs.  When the timer case runs,
    the goroutine may or may not have stored [errStdout] yet. *)
Inductive Race : Type :=
| DeadlineFirst (stdout_drained : bool)
| ExitFirst.

(** The calls made by the goroutine that runs [CmdRun], in program order.
    [E_io_Copy] returns only when the standard-error pipe is at end of file;
    [E_select] returns when the timer fires or [done] delivers. *)
Inductive Event : Type :=
| E_exec_Command (name : string)
| E_os_Environ
| E_StdoutPipe
| E_StderrPipe
| E_Start (c : Cmd)
| E_Printf (text : string)
| E_go (stdoutIn : option Reader)
| E_io_Copy (stderrIn : option Reader)
| E_select (d : Z)
| E_Getpgid (pid : Z)
| E_Kill (pid : Z) (sig : Z).

(** How a call of [CmdRun] ends: it returns its [error], or the process
    dies of a nil dereference in [io.Copy]. *)
Inductive Outcome : Type :=
| Returned (err : option error)
| Panicked.

Definition newline : string := String "010"%char EmptyString.

Definition second : Z := 1000000000.

Section Runner.
Context {W : Type} {HW : io_Writer W}.

(** What the operating system answers.  [StdoutPipe] and [StderrPipe] are
    the pairs [(reader, err)] the calls return; [Start], [Wait] and [Kill]
    return an [error]; [Getpgid] returns [(pgid, err)]; [race d] says which
    case of the [select] runs for a timer of [d] nanoseconds. *)
Record World : Type := {
  os_Stdout : W;
  os_Stderr : W;
  os_Environ : list string;
  StdoutPipe : option Reader * option error;
  StderrPipe : option Reader * option error;
  Start : Cmd -> option error;
  Process_Pid : Z;
  Wait : option error;
  race : Z -> Race;
  Getpgid : Z -> Z * option error;
  Kill : Z -> Z -> option error
}.

(** A finished call: how it ended, the calls it made, and the two local
    writers.  [run_stdout] is [None] while the goroutine is still copying
    into it. *)
Record Run : Type := {
  outcome : Outcome;
  trace : list Event;
  run_stdout : option (CapturingPassThroughWriter W);
  run_stderr : CapturingPassThroughWriter W
}.

(** The timeout after the default is applied (lines 43-45). *)
Definition effective_timeout (timeout : Z) : Z :=
  if timeout <=? 0 then 3 else timeout.

(** The command built by lines 46-50. *)
Definition command (os : World) (scriptPath : string) : Cmd :=
  let cmd := exec_Command (strings_TrimRight scriptPath newline) in
  let cmd := {| Path := Path cmd; Args := Args cmd;
                Env := os_Environ os; Attr := Attr cmd |} in
  {| Path := Path cmd; Args := Args cmd; Env := Env cmd;
     Attr := Some {| Setpgid := true |} |}.

(** The goroutine of lines 64-67, run to its end: the writer it filled,
    [errStdout], and the value it sends on [done]. *)
Definition goroutine (os : World) (stdout : CapturingPassThroughWriter W)
    (stdoutIn : option Reader)
  : option (CapturingPassThroughWriter W * option error * option error) :=
  match io_Copy stdout stdoutIn with
  | None => None
  | Some (stdout, (_, errStdout)) => Some (stdout, errStdout, Wait os)
  end.

(** [err != nil]. *)
Definition not_nil (err : option error) : bool :=
  match err with
  | Some _ => true
  | None => false
  end.

(** Lines 90-95. *)
Definition finish (tr : list Event) (errStdout errStderr : option error)
    (stdout : option (CapturingPassThroughWriter W))
    (stderr : CapturingPassThroughWriter W) : Run :=
  if not_nil errStdout || not_nil errStderr
  then {| outcome := Returned (Some (fmt_Errorf "failed to capture stdout or stderr"));
          trace := tr; run_stdout := stdout; run_stderr := stderr |}
  else {| outcome := Returned None;
          trace := tr ++ [E_Printf ("Execution of the script finished successfully"
                                    ++ newline)%string];
          run_stdout := stdout; run_stderr := stderr |}.

(** [time.Duration(timeout) * time.Second], in nanoseconds. *)
Definition timer (timeout : Z) : Z := wrap64 (timeout * second).

Definition CmdRun (os : World) (scriptPath : string) (timeout : Z) : Run :=
  let timeout := effective_timeout timeout in
  let cmd := command os scriptPath in
  let '(stdoutIn, _) := StdoutPipe os in
  let '(stderrIn, _) := StderrPipe os in
  let stdout := NewCapturingPassThroughWriter (os_Stdout os) in
  let stderr := NewCapturingPassThroughWriter (os_Stderr os) in
  let launch :=
    [E_exec_Command (strings_TrimRight scriptPath newline); E_os_Environ;
     E_StdoutPipe; E_StderrPipe; E_Start cmd] in
  match Start os cmd with
  | Some err =>
      {| outcome := Returned (Some err); trace := launch;
         run_stdout := Some stdout; run_stderr := stderr |}
  | None =>
      let started :=
        launch ++
        [E_Printf (newline ++ "Starting the exection of the script: " ++ newline
                   ++ scriptPath ++ " with timeout: " ++ fmt_d timeout ++ "s"
                   ++ newline)%string;
         E_go stdoutIn] in
      match goroutine os stdout stdoutIn with
      | None =>
          {| outcome := Panicked; trace := started;
             run_stdout := None; run_stderr := stderr |}
      | Some (stdout_done, errStdout_done, exit_err) =>
          match io_Copy stderr stderrIn with
          | None =>
              {| outcome := Panicked; trace := started ++ [E_io_Copy stderrIn];
                 run_stdout := None; run_stderr := stderr |}
          | Some (stderr, (_, errStderr)) =>
              let d := timer timeout in
              let raced := started ++ [E_io_Copy stderrIn; E_select d] in
              match race os d with
              | DeadlineFirst drained =>
                  let stdout_now := if drained then Some stdout_done else None in
                  let errStdout := if drained then errStdout_done else None in
                  let '(pgid, err) := Getpgid os (Process_Pid os) in
                  match err with
                  | Some err =>
                      {| outcome := Returned (Some err);
                         trace := raced ++ [E_Getpgid (Process_Pid os)];
                         run_stdout := stdout_now; run_stderr := stderr |}
                  | None =>
                      match Kill os (wrap64 (- pgid)) 15 with
                      | Some err =>
                          {| outcome := Returned (Some err);
                             trace := raced ++ [E_Getpgid (Process_Pid os);
                                                E_Kill (wrap64 (- pgid)) 15];
                             run_stdout := stdout_now; run_stderr := stderr |}
                      | None =>
                          finish
                            (raced ++
                             [E_Getpgid (Process_Pid os);
                              E_Kill (wrap64 (- pgid)) 15;
                              E_Printf ("Process killed as timeout("
                                        ++ fmt_d timeout ++ ") reached"
                                        ++ newline)%string])
                            errStdout errStderr stdout_now stderr
                      end
                  end
              | ExitFirst =>
                  match exit_err with
                  | Some err =>
                      {| outcome :=
                           Returned (Some (fmt_Errorf
                             ("process finished with error = " ++ Error err)%string));
                         trace := raced;
                         run_stdout := Some stdout_done; run_stderr := stderr |}
                  | None =>
                      finish raced errStdout_done errStderr (Some stdout_done) stderr
                  end
              end
          end
      end
  end.

(** The two drains as [CmdRun] starts them (lines 65 and 69), run until the
    pipe is at end of file. *)
Definition stdout_drain (os : World)
  : option (CapturingPassThroughWriter W * (Z * option error)) :=
  io_Copy (NewCapturingPassThroughWriter (os_Stdout os)) (fst (StdoutPipe os)).

Definition stderr_drain (os : World)
  : option (CapturingPassThroughWriter W * (Z * option error)) :=
  io_Copy (NewCapturingPassThroughWriter (os_Stderr os)) (fst (StderrPipe os)).

(** The same world, with other errors returned by the two pipe calls. *)
Definition pipe_errors (os : World) (e_out e_err : option error) : World :=
  {| os_Stdout := os_Stdout os;
     os_Stderr := os_Stderr os;
     os_Environ := os_Environ os;
     StdoutPipe := (fst (StdoutPipe os), e_out);
     StderrPipe := (fst (StderrPipe os), e_err);
     Start := Start os;
     Process_Pid := Process_Pid os;
     Wait := Wait os;
     race := race os;
     Getpgid := Getpgid os;
     Kill := Kill os |}.

(** The same world, in which the process exits with status 0 and [done]
    delivers before the timer. *)
Definition exiting_cleanly (os : World) : World :=
  {| os_Stdout := os_Stdout os;
     os_Stderr := os_Stderr os;
     os_Environ := os_Environ os;
     StdoutPipe := StdoutPipe os;
     StderrPipe := StderrPipe os;
     Start := Start os;
     Process_Pid := Process_Pid os;
     Wait := None;
     race := fun _ => ExitFirst;
     Getpgid := Getpgid os;
     Kill := Kill os |}.

End Runner.

Arguments World W : clear implicits.
Arguments Run W : clear implicits.

(** ** Reading a trace *)

(** The calls that suspend the caller: the synchronous copy of standard
    error and the [select]. *)
Definition waits (e : Event) : bool :=
  match e with
  | E_io_Copy _ | E_select _ => true
  | _ => false
  end.

(** The calls of package [syscall]. *)
Definition is_syscall (e : Event) : bool :=
  match e with
  | E_Getpgid _ | E_Kill _ _ => true
  | _ => false
  end.

Definition syscalls (tr : list Event) : list Event := filter is_syscall tr.

(** The command handed to [cmd.Start]. *)
Fixpoint launched (tr : list Event) : option Cmd :=
  match tr with
  | [] => None
  | E_Start c :: _ => Some c
  | _ :: rest => launched rest
  end.

(** Every [select] in the trace comes directly after the synchronous copy
    of standard error has returned. *)
Fixpoint select_follows_drain (prev : option Event) (tr : list Event) : bool :=
  match tr with
  | [] => true
  | e :: rest =>
      match e, prev with
      | E_select _, Some (E_io_Copy _) => select_follows_drain (Some e) rest
      | E_select _, _ => false
      | _, _ => select_follows_drain (Some e) rest
      end
  end.

(** [k] newline bytes. *)
Fixpoint newlines (k : nat) : string :=
  match k with
  | O => EmptyString
  | S k => String "010"%char (newlines k)
  end.

(** The last byte of [s], if any. *)
Fixpoint last_byte (s : string) : option ascii :=
  match s with
  | EmptyString => None
  | String c EmptyString => Some c
  | String _ rest => last_byte rest
  end.

Definition ends_with_newline (s : string) : bool :=
  match last_byte s with
  | Some c => Ascii.eqb c "010"%char
  | None => false
  end.

(** ** Destinations and worlds to run the code on *)

(** A destination that takes every byte, such as a terminal. *)
Record Terminal : Type := {
  shown : bytes
}.

#[export] Instance Terminal_io_Writer : io_Writer Terminal :=
  fun t p => ({| shown := shown t ++ p |}, (len p, None)).

(** A destination with room for [room] more bytes.  A write that does not
    fit is cut short and reports the error. *)
Record Disk : Type := {
  stored : bytes;
  room : nat
}.

#[export] Instance Disk_io_Writer : io_Writer Disk :=
  fun d p =>
    if (List.length p <=? room d)%nat
    then ({| stored := stored d ++ p; room := room d - List.length p |},
          (len p, None))
    else ({| stored := stored d ++ firstn (room d) p; room := 0 |},
          (Z.of_nat (room d), Some (os_error "no space left on device"))).

Definition text (s : string) : bytes := list_byte_of_string s.

(** A pipe that delivers the chunks one read at a time and is then at end
    of file. *)
Definition chunked (chunks : list bytes) : Reader :=
  map (fun p => (p, None)) chunks.

(** A world whose parent streams are terminals: the child writes [out] and
    [err], [Start] answers [start], [Wait] answers [wait], the [select]
    goes as [r], the child is process 4242 and leads its own group, and
    [Kill] answers [kill]. *)
Definition scripted (out err : option Reader) (start wait : option error)
    (r : Race) (kill : option error) : World Terminal :=
  {| os_Stdout := {| shown := [] |};
     os_Stderr := {| shown := [] |};
     os_Environ := ["PATH=/usr/bin:/bin"];
     StdoutPipe := (out, None);
     StderrPipe := (err, None);
     Start := fun _ => start;
     Process_Pid := 4242;
     Wait := wait;
     race := fun _ => r;
     Getpgid := fun pid => (pid, None);
     Kill := fun _ _ => kill |}.

(** Scenario 1 of the design: the script prints [hello] and exits 0. *)
Definition hello_world : World Terminal :=
  scripted (Some [(text ("hello" ++ newline), None)]) (Some [])
           None None ExitFirst None.

(** The script closes its standard error at once, prints [tick] and
    sleeps on past its deadline: the timer case runs, and the group is
    signalled while the goroutine is still copying standard output. *)
Definition sleeper_world : World Terminal :=
  scripted (Some [(text "tick", None)]) (Some [])
           None None (DeadlineFirst false) None.

(** As [sleeper_world], but the group is gone when the signal is sent. *)
Definition kill_fails_world : World Terminal :=
  scripted (Some [(text "tick", None)]) (Some [])
           None None (DeadlineFirst false) (Some (os_error "no such process")).

(** The script sleeps past its deadline with both pipes open and then
    exits 0.  Standard error is at end of file only when the script exits,
    so the [select] is entered after the exit and finds [done] ready. *)
Definition overrunning_world : World Terminal :=
  scripted (Some []) (Some []) None None ExitFirst None.

(** The script prints [out] and exits with status 1. *)
Definition exit1_world (out : string) : World Terminal :=
  scripted (Some [(text out, None)]) (Some [])
           None (Some (os_error "exit status 1")) ExitFirst None.

(** Scenario 4 of the design: there is no such script. *)
Definition missing_script_world : World Terminal :=
  scripted (Some []) (Some [])
           (Some (os_error "fork/exec /nonexistent/script.sh: no such file or directory"))
           None ExitFirst None.

(** [os.Pipe] fails for standard output (no descriptor left), and the
    process starts all the same. *)
Definition no_stdout_pipe_world : World Terminal :=
  {| os_Stdout := {| shown := [] |};
     os_Stderr := {| shown := [] |};
     os_Environ := [];
     StdoutPipe := (None, Some (os_error "pipe: too many open files"));
     StderrPipe := (Some [], None);
     Start := fun _ => None;
     Process_Pid := 4242;
     Wait := None;
     race := fun _ => ExitFirst;
     Getpgid := fun pid => (pid, None);
     Kill := fun _ _ => None |}.

(** As above for standard error. *)
Definition no_stderr_pipe_world : World Terminal :=
  {| os_Stdout := {| shown := [] |};
     os_Stderr := {| shown := [] |};
     os_Environ := [];
     StdoutPipe := (Some [], None);
     StderrPipe := (None, Some (os_error "pipe: too many open files"));
     Start := fun _ => None;
     Process_Pid := 4242;
     Wait := None;
     race := fun _ => ExitFirst;
     Getpgid := fun pid => (pid, None);
     Kill := fun _ _ => None |}.

From Stdlib Require Import Sorted Permutation.

(** ** Package [allure_report]: the text helpers of the Allure 2 output *)

Module allure_report.

(** [strings.Join(elems, sep)]. *)
Definition strings_Join (elems : list string) (sep : string) : string :=
  String.concat sep elems.

(** [len(x)] of a slice or of a map, as a Go [int]. *)
Definition count {A : Type} (x : list A) : Z := Z.of_nat (List.length x).

(** [sort.Strings], [sort.Ints] and [sort.Slice] put a slice in ascending
    order.  The library's algorithm is not stable; on values that are
    equal whenever neither is less than the other (strings, integers,
    records compared by a key no two of them share) the ascending
    arrangement is unique, and insertion computes it. *)
Section Sort.
Context {A : Type} (less_eq : A -> A -> bool).

Fixpoint insert_ascending (x : A) (l : list A) : list A :=
  match l with
  | [] => [x]
  | y :: rest =>
      if less_eq x y then x :: l else y :: insert_ascending x rest
  end.

Fixpoint sort_ascending (l : list A) : list A :=
  match l with
  | [] => []
  | x :: rest => insert_ascending x (sort_ascending rest)
  end.
End Sort.

Definition sort_Strings (x : list string) : list string :=
  sort_ascending String.leb x.

Definition sort_Ints (x : list Z) : list Z :=
  sort_ascending Z.leb x.

(** [filepath.Base(path)] on a system whose separator is [/]. *)
Fixpoint has_separator (path : string) : bool :=
  match path with
  | EmptyString => false
  | String c rest => Ascii.eqb c "/"%char || has_separator rest
  end.

Fixpoint last_element (path : string) : string :=
  match path with
  | EmptyString => EmptyString
  | String c rest =>
      if has_separator rest then last_element rest
      else if Ascii.eqb c "/"%char then rest
      else path
  end.

Definition filepath_Base (path : string) : string :=
  if String.eqb path "" then "."
  else
    let path := last_element (strings_TrimRight path "/") in
    if String.eqb path "" then "/" else path.

(** A Go map is the list of its entries in the order a [range] over it
    visits them, which the language leaves open; no two entries share a
    key. *)

(** The values a decoded mock definition is made of: an [interface{}]
    holding nil, a string, a [map[interface{}]interface{}], a
    [[]interface{}], or a value of any other type. *)
#[warnings="-register-all"] Inductive Value : Type :=
| VNil
| VString (s : string)
| VMap (entries : list (Value * Value))
| VSlice (items : list Value)
| VOther (tag : Z).

(** [v, ok := m[k]] for a string [k]. *)
Fixpoint lookup (m : list (Value * Value)) (k : string) : option Value :=
  match m with
  | [] => None
  | (VString s, v) :: rest => if String.eqb s k then Some v else lookup rest k
  | _ :: rest => lookup rest k
  end.

(** [m[k]]: nil when the key is missing. *)
Definition index (m : list (Value * Value)) (k : string) : Value :=
  match lookup m k with
  | Some v => v
  | None => VNil
  end.

(** The type assertions [v.(string)], [v.(map[interface{}]interface{})]
    and [v.([]interface{})] in their two-result form. *)
Definition as_string (v : Value) : option string :=
  match v with
  | VString s => Some s
  | _ => None
  end.

Definition as_map (v : Value) : option (list (Value * Value)) :=
  match v with
  | VMap m => Some m
  | _ => None
  end.

Definition as_slice (v : Value) : option (list Value) :=
  match v with
  | VSlice l => Some l
  | _ => None
  end.

(** The keys of a map that are strings, in iteration order (the loops of
    lines 74-78 and 90-94). *)
Fixpoint string_keys (m : list (Value * Value)) : list string :=
  match m with
  | [] => []
  | (VString s, _) :: rest => s :: string_keys rest
  | _ :: rest => string_keys rest
  end.

(** The loop of lines 100-108. *)
Fixpoint request_paths (uris : list Value) : list string :=
  match uris with
  | [] => []
  | VMap uriMap :: rest =>
      match as_string (index uriMap "path") with
      | Some path => path :: request_paths rest
      | None => "[conditional]" :: request_paths rest
      end
  | _ :: rest => request_paths rest
  end.

Definition extractEndpoints (strategy : string) (def : list (Value * Value))
  : list string :=
  if String.eqb strategy "constant" || String.eqb strategy "template" then
    match as_string (index def "path") with
    | Some path => [path]
    | None => ["/"]
    end
  else if String.eqb strategy "file" then
    match as_string (index def "filename") with
    | Some filename => [("file: " ++ filepath_Base filename)%string]
    | None => []
    end
  else if String.eqb strategy "uriVary" then
    let endpoints :=
      match as_map (index def "uris") with
      | Some uris => sort_Strings (string_keys uris)
      | None => []
      end in
    match as_string (index def "basePath") with
    | Some basePath =>
        if negb (String.eqb basePath "")
        then map (fun ep => (basePath ++ ep)%string) endpoints
        else endpoints
    | None => endpoints
    end
  else if String.eqb strategy "methodVary" then
    match as_map (index def "methods") with
    | Some methods => sort_Strings (string_keys methods)
    | None => []
    end
  else if String.eqb strategy "basedOnRequest" then
    match as_slice (index def "uris") with
    | Some uris => request_paths uris
    | None => []
    end
  else if String.eqb strategy "sequence" then
    match as_slice (index def "sequence") with
    | Some seq => [("[sequence: " ++ fmt_d (count seq) ++ " steps]")%string]
    | None => []
    end
  else if String.eqb strategy "nop" || String.eqb strategy "dropRequest" then
    ["-"]
  else [].

(** The base path [extractEndpoints] puts in front of the endpoints of a
    [uriVary] mock (line 82): [def["basePath"]] if it is a string, nothing
    otherwise. *)
Definition base_path (def : list (Value * Value)) : string :=
  match as_string (index def "basePath") with
  | Some basePath => basePath
  | None => ""
  end.

(** Strings in ascending order, as [sort.Strings] leaves them. *)
Definition ascending (l : list string) : Prop :=
  StronglySorted (fun a b => String.leb a b = true) l.

Record mockInfo : Type := {
  ServiceName : string;
  Strategy : string;
  Endpoints : list string
}.

(** The body of the loop of lines 26-46 for one entry of [mocks]. *)
Definition mock_info (serviceName : string) (def : Value) : mockInfo :=
  match as_map def with
  | None =>
      {| ServiceName := serviceName; Strategy := "unknown"; Endpoints := [] |}
  | Some defMap =>
      match lookup defMap "strategy" with
      | Some (VString strategyStr) =>
          {| ServiceName := serviceName; Strategy := strategyStr;
             Endpoints := extractEndpoints strategyStr defMap |}
      | _ => {| ServiceName := serviceName; Strategy := ""; Endpoints := [] |}
      end
  end.

Definition extractMocksInfo (mocks : list (string * Value)) : list mockInfo :=
  if count mocks =? 0 then []
  else
    sort_ascending
      (fun a b => String.leb (ServiceName a) (ServiceName b))
      (map (fun entry => mock_info (fst entry) (snd entry)) mocks).

(** One element of [models.FixturesMultiDb], with the two fields the
    package reads. *)
Record Fixture : Type := {
  DbName : string;
  Files : list string
}.

Definition formatFixturesInfo (fixtures : list string) (multiDb : list Fixture)
  : string :=
  if 0 <? count fixtures then
    (strings_Join fixtures ", " ++ " (" ++ fmt_d (count fixtures) ++ " files)")%string
  else if 0 <? count multiDb then
    strings_Join
      (map (fun fixture =>
              (DbName fixture ++ ": " ++ fmt_d (count (Files fixture))
               ++ " files")%string) multiDb)
      "; "
  else "".

(** [endpoints[0]] is read only when there are more than three. *)
Definition joinEndpoints (endpoints : list string) : string :=
  if 3 <? count endpoints then
    (nth 0 endpoints "" ++ ", ... (" ++ fmt_d (count endpoints) ++ " total)")%string
  else strings_Join endpoints ", ".

Definition formatHeaders (headers : list (string * string)) : string :=
  let lines :=
    map (fun kv => (fst kv ++ ": " ++ snd kv)%string) headers in
  strings_Join (sort_Strings lines) newline.

Definition formatResponseHeaders (headers : list (string * list string))
  : string :=
  let lines :=
    flat_map (fun kvs => map (fun v => (fst kvs ++ ": " ++ v)%string) (snd kvs))
             headers in
  strings_Join (sort_Strings lines) newline.

Definition formatCookies (cookies : list (string * string)) : string :=
  let lines :=
    map (fun kv => (fst kv ++ "=" ++ snd kv)%string) cookies in
  strings_Join lines newline.

Definition formatDbResponse (response : list string) : string :=
  if count response =? 0 then "[]"
  else if 10 <? count response then
    ("[" ++ newline ++ "  " ++ nth 0 response "" ++ "," ++ newline
     ++ "  ... (" ++ fmt_d (count response) ++ " total rows)" ++ newline ++ "]")%string
  else
    ("[" ++ newline ++ "  "
     ++ strings_Join response ("," ++ newline ++ "  ") ++ newline ++ "]")%string.

Definition getExpectedStatusCodes (responses : list (Z * string)) : list Z :=
  sort_Ints (map fst responses).

Definition formatStatusCodes (codes : list Z) : string :=
  match codes with
  | [] => ""
  | [code] => fmt_d code
  | _ => strings_Join (map fmt_d codes) ", "
  end.

(** [categorizeErrors].  Package [models] is not part of these sources:
    the type of error categories, its equality, the category of response
    bodies, and what [errors.As] with [GetCategory] and [GetIdentifier]
    find in an error are taken as given. *)
Section Categorize.
Variables (error ErrorCategory : Type).
Variable category_eqb : ErrorCategory -> ErrorCategory -> bool.
Variable ErrorCategoryResponseBody : ErrorCategory.
Variable as_CheckError : error -> option (ErrorCategory * string).

(** [m[k]] with its presence, and [m[k] = v], by a key equality. *)
Fixpoint map_get {K V : Type} (eqb : K -> K -> bool) (m : list (K * V)) (k : K)
  : option V :=
  match m with
  | [] => None
  | (k', v) :: rest => if eqb k' k then Some v else map_get eqb rest k
  end.

Fixpoint map_set {K V : Type} (eqb : K -> K -> bool) (m : list (K * V)) (k : K)
    (v : V) : list (K * V) :=
  match m with
  | [] => [(k, v)]
  | (k', v') :: rest =>
      if eqb k' k then (k, v) :: rest else (k', v') :: map_set eqb rest k v
  end.

Definition ErrorsByIdentifier : Type := list (string * list error).

Definition Categories : Type := list (ErrorCategory * ErrorsByIdentifier).

(** [categories[category]]: nil when the key is missing. *)
Definition by_identifier (categories : Categories) (category : ErrorCategory)
  : ErrorsByIdentifier :=
  match map_get category_eqb categories category with
  | None => []
  | Some by_id => by_id
  end.

(** [categories[category][identifier]]: reading a missing key of either
    map gives nil. *)
Definition errors_of (categories : Categories) (category : ErrorCategory)
    (identifier : string) : list error :=
  match map_get String.eqb (by_identifier categories category) identifier with
  | None => []
  | Some errs => errs
  end.

(** Lines 403-406, and lines 409-412 with the category of response bodies
    and the empty identifier. *)
Definition add_error (categories : Categories) (category : ErrorCategory)
    (identifier : string) (err : error) : Categories :=
  let categories :=
    match map_get category_eqb categories category with
    | None => map_set category_eqb categories category []
    | Some _ => categories
    end in
  map_set category_eqb categories category
    (map_set String.eqb (by_identifier categories category) identifier
       (errors_of categories category identifier ++ [err])).

Definition categorizeErrors (errs : list error) : Categories :=
  fold_left
    (fun categories err =>
       match as_CheckError err with
       | Some (category, identifier) =>
           add_error categories category identifier err
       | None => add_error categories ErrorCategoryResponseBody "" err
       end)
    errs [].

(** Where an error ends up. *)
Definition bucket (err : error) : ErrorCategory * string :=
  match as_CheckError err with
  | Some b => b
  | None => (ErrorCategoryResponseBody, "")
  end.

Definition in_bucket (category : ErrorCategory) (identifier : string)
    (err : error) : bool :=
  category_eqb (fst (bucket err)) category
  && String.eqb (snd (bucket err)) identifier.

End Categorize.

End allure_report.

(** ** Package [console_colored] *)

Module console_colored.

Definition dotsPerLine : Z := 80.

Record ConsoleColoredOutput : Type := {
  verbose : bool;
  dots : Z
}.

Definition NewOutput (verbose : bool) : ConsoleColoredOutput :=
  {| verbose := verbose; dots := 0 |}.

(** [Process].  The result type of package [models] with its [Passed]
    method is taken as given, and so is [renderResult], which runs a
    [text/template].  The second component is what the call prints. *)
Section Process.
Variable Result : Type.
Variable Passed : Result -> bool.
Variable renderResult : Result -> string * option error.

Definition Process (o : ConsoleColoredOutput) (result : Result)
  : ConsoleColoredOutput * string * option error :=
  if negb (Passed result) || verbose o then
    let '(text, err) := renderResult result in
    match err with
    | Some err => (o, "", Some err)
    | None => (o, text, None)
    end
  else
    let o := {| verbose := verbose o; dots := wrap64 (dots o + 1) |} in
    if Z.rem (dots o) dotsPerLine =? 0
    then (o, ("." ++ newline)%string, None)
    else (o, ".", None).

(** [Process] on one result after the other, with all that is printed. *)
Fixpoint process_all (o : ConsoleColoredOutput) (results : list Result)
  : ConsoleColoredOutput * string :=
  match results with
  | [] => (o, "")
  | result :: rest =>
      let '(o, printed, _) := Process o result in
      let '(o, more) := process_all o rest in
      (o, (printed ++ more)%string)
  end.

End Process.

(** How often a byte occurs in a text. *)
Fixpoint occurrences (c : ascii) (s : string) : Z :=
  match s with
  | EmptyString => 0
  | String c' rest => (if Ascii.eqb c' c then 1 else 0) + occurrences c rest
  end.

End console_colored.

(** Errors to categorise: a check error of package [models], with its
    category and identifier, or any other error. *)
Inductive sample_error : Type :=
| check_error (category identifier message : string)
| plain_error (message : string).

Definition sample_as_CheckError (err : sample_error)
  : option (string * string) :=
  match err with
  | check_error category identifier _ => Some (category, identifier)
  | plain_error _ => None
  end.

(** Results to print: whether the test passed, and its rendered text. *)
Definition sample_render (result : bool * string) : string * option error :=
  (snd result, None).

(** * Properties *)

(** ** The writer *)

Section SinkFacts.
Context {W : Type} {HW : io_Writer W}.

Lemma Write_buf (cw : CapturingPassThroughWriter W) (d : bytes) :
  buf (fst (fst (CapturingPassThroughWriter_Write cw d))) = buf cw ++ d.
Proof.
  unfold CapturingPassThroughWriter_Write, Buffer_Write.
  destruct (Write (w cw) d) as [dst r]. reflexivity.
Qed.

Lemma Write_w (cw : CapturingPassThroughWriter W) (d : bytes) :
  w (fst (fst (CapturingPassThroughWriter_Write cw d))) = fst (Write (w cw) d).
Proof.
  unfold CapturingPassThroughWriter_Write, Buffer_Write.
  destruct (Write (w cw) d) as [dst r]. reflexivity.
Qed.

Lemma Write_result (cw : CapturingPassThroughWriter W) (d : bytes) :
  snd (fst (CapturingPassThroughWriter_Write cw d)) = snd (Write (w cw) d).
Proof.
  unfold CapturingPassThroughWriter_Write, Buffer_Write.
  destruct (Write (w cw) d) as [dst r]. reflexivity.
Qed.

Lemma Write_calls (cw : CapturingPassThroughWriter W) (d : bytes) :
  snd (CapturingPassThroughWriter_Write cw d) = [buf_Write d; w_Write d].
Proof.
  unfold CapturingPassThroughWriter_Write, Buffer_Write.
  destruct (Write (w cw) d) as [dst r]. reflexivity.
Qed.

Lemma write_all_cons (cw : CapturingPassThroughWriter W) (d : bytes)
    (ds : list bytes) :
  write_all cw (d :: ds) =
  (fst (write_all (fst (fst (CapturingPassThroughWriter_Write cw d))) ds),
   [buf_Write d; w_Write d] ++
   snd (write_all (fst (fst (CapturingPassThroughWriter_Write cw d))) ds)).
Proof.
  cbn [write_all].
  pose proof (Write_calls cw d) as Hc.
  destruct (CapturingPassThroughWriter_Write cw d) as [[cw1 r] calls].
  cbn [fst snd] in *. subst calls.
  destruct (write_all cw1 ds) as [cw2 more]. reflexivity.
Qed.

Lemma write_all_buf (ds : list bytes) :
  forall cw : CapturingPassThroughWriter W,
    buf (fst (write_all cw ds)) = buf cw ++ List.concat ds.
Proof.
  induction ds as [|d ds IH]; intro cw.
  - cbn. now rewrite app_nil_r.
  - rewrite write_all_cons. cbn [fst List.concat].
    rewrite IH, Write_buf. now rewrite <- app_assoc.
Qed.

Lemma write_all_w (ds : list bytes) :
  forall cw : CapturingPassThroughWriter W,
    w (fst (write_all cw ds)) = write_direct (w cw) ds.
Proof.
  induction ds as [|d ds IH]; intro cw.
  - reflexivity.
  - rewrite write_all_cons. cbn [fst write_direct].
    now rewrite IH, Write_w.
Qed.

Lemma write_all_forwarded (ds : list bytes) :
  forall cw : CapturingPassThroughWriter W,
    forwarded (snd (write_all cw ds)) = ds.
Proof.
  induction ds as [|d ds IH]; intro cw.
  - reflexivity.
  - rewrite write_all_cons. cbn. now rewrite IH.
Qed.

Lemma write_all_buffered (ds : list bytes) :
  forall cw : CapturingPassThroughWriter W,
    buffered (snd (write_all cw ds)) = ds.
Proof.
  induction ds as [|d ds IH]; intro cw.
  - reflexivity.
  - rewrite write_all_cons. cbn. now rewrite IH.
Qed.

End SinkFacts.

(** Written straight to a terminal, the slices show up one after the other. *)
Lemma write_direct_Terminal (ds : list bytes) :
  forall t : Terminal, shown (write_direct t ds) = shown t ++ List.concat ds.
Proof.
  induction ds as [|d ds IH]; intro t; cbn.
  - now rewrite app_nil_r.
  - rewrite IH. cbn. now rewrite <- app_assoc.
Qed.

(** C2.  After any finite sequence of [Write] calls on a writer made by
    [NewCapturingPassThroughWriter], [Bytes()] is the concatenation of the
    slices written, in call order; the destination was handed exactly those
    slices, in that order, and is in the state it would be in had they been
    written to it directly.  From a writer that already holds bytes, the
    slices are appended to what it holds. *)
Theorem C2_capture_and_forward_in_order :
  forall (W : Type) (HW : io_Writer W) (dst : W)
         (cw : CapturingPassThroughWriter W) (ds : list bytes),
    CapturingPassThroughWriter_Bytes
      (fst (write_all (NewCapturingPassThroughWriter dst) ds)) = List.concat ds
    /\ forwarded (snd (write_all (NewCapturingPassThroughWriter dst) ds)) = ds
    /\ w (fst (write_all (NewCapturingPassThroughWriter dst) ds))
       = write_direct dst ds
    /\ CapturingPassThroughWriter_Bytes (fst (write_all cw ds))
       = CapturingPassThroughWriter_Bytes cw ++ List.concat ds
    /\ forwarded (snd (write_all cw ds)) = ds
    /\ buffered (snd (write_all cw ds)) = ds.
Proof.
  intros W HW dst cw ds.
  unfold CapturingPassThroughWriter_Bytes, Buffer_Bytes.
  rewrite !write_all_buf, !write_all_forwarded, !write_all_w, write_all_buffered.
  cbn. repeat split; reflexivity.
Qed.

(** C7.  [Write(d)] makes two calls, in this order: it appends [d] to the
    private buffer, then hands [d] to the destination.  It returns the byte
    count and the error of the destination's [Write], and the buffer holds
    [d] whatever the destination answered, so also when forwarding failed. *)
Theorem C7_write_buffers_then_forwards :
  forall (W : Type) (HW : io_Writer W)
         (cw : CapturingPassThroughWriter W) (d : bytes),
    snd (CapturingPassThroughWriter_Write cw d) = [buf_Write d; w_Write d]
    /\ CapturingPassThroughWriter_Bytes
         (fst (fst (CapturingPassThroughWriter_Write cw d)))
       = CapturingPassThroughWriter_Bytes cw ++ d
    /\ w (fst (fst (CapturingPassThroughWriter_Write cw d)))
       = fst (Write (w cw) d)
    /\ snd (fst (CapturingPassThroughWriter_Write cw d))
       = snd (Write (w cw) d)
    /\ (forall e : error,
          snd (snd (Write (w cw) d)) = Some e ->
          snd (snd (fst (CapturingPassThroughWriter_Write cw d))) = Some e
          /\ CapturingPassThroughWriter_Bytes
               (fst (fst (CapturingPassThroughWriter_Write cw d)))
             = CapturingPassThroughWriter_Bytes cw ++ d).
Proof.
  intros W HW cw d.
  unfold CapturingPassThroughWriter_Bytes, Buffer_Bytes.
  rewrite Write_calls, Write_buf, Write_w, Write_result.
  repeat split; try reflexivity; assumption.
Qed.

(** A full disk: the forwarding of [hello] fails after two bytes, and the
    writer still holds all five. *)
Example Write_to_full_disk :
  let cw := NewCapturingPassThroughWriter {| stored := []; room := 2 |} in
  let r := CapturingPassThroughWriter_Write cw (text "hello") in
  snd (fst r) = (2, Some (os_error "no space left on device"))
  /\ CapturingPassThroughWriter_Bytes (fst (fst r)) = text "hello"
  /\ stored (w (fst (fst r))) = text "he".
Proof. repeat split; reflexivity. Qed.

(** Three writes to a terminal. *)
Example write_all_to_terminal :
  let ds := [text "ab"; []; text "c"] in
  let r := write_all (NewCapturingPassThroughWriter {| shown := [] |}) ds in
  CapturingPassThroughWriter_Bytes (fst r) = text "abc"
  /\ shown (w (fst r)) = text "abc".
Proof. split; reflexivity. Qed.

(** ** Arithmetic and strings *)

Lemma wrap64_small (z : Z) : - 2 ^ 63 <= z < 2 ^ 63 -> wrap64 z = z.
Proof.
  intro Hz. unfold wrap64. rewrite Z.mod_small; lia.
Qed.

Lemma effective_timeout_default (timeout : Z) :
  timeout <= 0 -> effective_timeout timeout = 3.
Proof.
  intro Hle. unfold effective_timeout.
  destruct (Z.leb_spec timeout 0); [reflexivity | lia].
Qed.

Lemma in_cutset_newline (c : ascii) :
  in_cutset c newline = Ascii.eqb c "010"%char.
Proof. cbn. now rewrite orb_false_r. Qed.

(** What [strings.TrimRight(s, "\n")] removes is a run of newlines at the
    end, and what it keeps does not end in a newline. *)
Lemma TrimRight_newline (s : string) :
  exists k : nat,
    s = (strings_TrimRight s newline ++ newlines k)%string
    /\ ends_with_newline (strings_TrimRight s newline) = false.
Proof.
  induction s as [|c rest [k [Hrest Hend]]].
  - exists O. split; reflexivity.
  - cbn [strings_TrimRight].
    destruct (strings_TrimRight rest newline) as [|a kept] eqn:Hkept.
    + rewrite in_cutset_newline.
      destruct (Ascii.eqb c "010"%char) eqn:Hc.
      * apply Ascii.eqb_eq in Hc. subst c.
        exists (S k). split; [cbn; now rewrite Hrest at 1 | reflexivity].
      * exists k. split; [cbn; now rewrite Hrest at 1 |].
        unfold ends_with_newline. cbn. exact Hc.
    + exists k. split; [cbn; now rewrite Hrest at 1 |].
      exact Hend.
Qed.

(** ** The runner *)

(** Splits on every [match] and [if] of the goal. *)
Ltac split_cases :=
  repeat match goal with
         | |- context [match ?x with _ => _ end] => destruct x eqn:?
         end.

Section RunnerFacts.
Context {W : Type} {HW : io_Writer W}.
Implicit Types (os : World W) (scriptPath : string) (timeout : Z).

(** Every call starts with the same five calls, up to [cmd.Start]. *)
Lemma launched_CmdRun os scriptPath timeout :
  launched (trace (CmdRun os scriptPath timeout)) = Some (command os scriptPath).
Proof.
  unfold CmdRun, finish. split_cases; reflexivity.
Qed.

(** The timer is armed only after the copy of standard error is over. *)
Lemma select_follows_drain_CmdRun os scriptPath timeout :
  select_follows_drain None (trace (CmdRun os scriptPath timeout)) = true.
Proof.
  unfold CmdRun, finish. split_cases; reflexivity.
Qed.

(** [CmdRun] once the process runs and both drains are over. *)
Lemma CmdRun_started os scriptPath timeout out err :
  Start os (command os scriptPath) = None ->
  stdout_drain os = Some out ->
  stderr_drain os = Some err ->
  CmdRun os scriptPath timeout =
  let timeout := effective_timeout timeout in
  let raced :=
    [E_exec_Command (strings_TrimRight scriptPath newline); E_os_Environ;
     E_StdoutPipe; E_StderrPipe; E_Start (command os scriptPath);
     E_Printf (newline ++ "Starting the exection of the script: " ++ newline
               ++ scriptPath ++ " with timeout: " ++ fmt_d timeout ++ "s"
               ++ newline)%string;
     E_go (fst (StdoutPipe os)); E_io_Copy (fst (StderrPipe os));
     E_select (timer timeout)] in
  match race os (timer timeout) with
  | DeadlineFirst drained =>
      let stdout_now := if drained then Some (fst out) else None in
      let errStdout := if drained then snd (snd out) else None in
      match Getpgid os (Process_Pid os) with
      | (_, Some e) =>
          {| outcome := Returned (Some e);
             trace := raced ++ [E_Getpgid (Process_Pid os)];
             run_stdout := stdout_now; run_stderr := fst err |}
      | (pgid, None) =>
          match Kill os (wrap64 (- pgid)) 15 with
          | Some e =>
              {| outcome := Returned (Some e);
                 trace := raced ++ [E_Getpgid (Process_Pid os);
                                    E_Kill (wrap64 (- pgid)) 15];
                 run_stdout := stdout_now; run_stderr := fst err |}
          | None =>
              finish (raced ++
                      [E_Getpgid (Process_Pid os); E_Kill (wrap64 (- pgid)) 15;
                       E_Printf ("Process killed as timeout(" ++ fmt_d timeout
                                 ++ ") reached" ++ newline)%string])
                     errStdout (snd (snd err)) stdout_now (fst err)
          end
      end
  | ExitFirst =>
      match Wait os with
      | Some e =>
          {| outcome := Returned (Some (fmt_Errorf
                          ("process finished with error = " ++ Error e)%string));
             trace := raced;
             run_stdout := Some (fst out); run_stderr := fst err |}
      | None => finish raced (snd (snd out)) (snd (snd err)) (Some (fst out)) (fst err)
      end
  end.
Proof.
  unfold stdout_drain, stderr_drain, CmdRun, goroutine.
  intros Hstart Hout Herr. cbv zeta.
  destruct (StdoutPipe os) as [stdoutIn e_out].
  destruct (StderrPipe os) as [stderrIn e_err].
  cbn [fst snd] in *.
  rewrite Hstart, Hout, Herr.
  destruct out as [so [no eo]], err as [se [ne ee]]. cbn [fst snd app].
  destruct (race os _) as [drained|]; [|reflexivity].
  destruct (Getpgid os (Process_Pid os)) as [pgid [e|]]; reflexivity.
Qed.

Lemma outcome_finish tr (e1 e2 : option error) so (se : CapturingPassThroughWriter W) :
  outcome (finish tr e1 e2 so se) =
  Returned (if not_nil e1 || not_nil e2
            then Some (fmt_Errorf "failed to capture stdout or stderr")
            else None).
Proof.
  unfold finish. destruct (not_nil e1 || not_nil e2); reflexivity.
Qed.

Lemma syscalls_finish tr (e1 e2 : option error) so (se : CapturingPassThroughWriter W) :
  syscalls (trace (finish tr e1 e2 so se)) = syscalls tr.
Proof.
  unfold finish, syscalls. destruct (not_nil e1 || not_nil e2); cbn [trace].
  - reflexivity.
  - rewrite filter_app. cbn. now rewrite app_nil_r.
Qed.

End RunnerFacts.

(** C5.  A call with a timeout of zero or less is the same call as one
    with a timeout of 3: same result, same calls with the same arguments
    (the messages print 3, the timer is armed for three seconds), same
    captured bytes. *)
Theorem C5_nonpositive_timeout_is_three_seconds :
  forall (W : Type) (HW : io_Writer W) (os : World W)
         (scriptPath : string) (timeout : Z),
    timeout <= 0 ->
    CmdRun os scriptPath timeout = CmdRun os scriptPath 3.
Proof.
  intros W HW os scriptPath timeout Hle.
  unfold CmdRun. now rewrite (effective_timeout_default Hle).
Qed.

Lemma C5_witness :
  -7 <= 0
  /\ CmdRun sleeper_world "/tmp/sleep.sh" (-7)
     = CmdRun sleeper_world "/tmp/sleep.sh" 3.
Proof.
  split.
  - discriminate.
  - apply (@C5_nonpositive_timeout_is_three_seconds
             Terminal _ sleeper_world "/tmp/sleep.sh" (-7)).
    discriminate.
Defined.

(** C4.  When [cmd.Start] fails, [CmdRun] returns that error.  It has made
    five calls, the last of which is the failed [Start]; none of them
    suspends the caller, no goroutine is started and no timer is armed, and
    the timeout plays no part in the call. *)
Theorem C4_launch_error_returned_at_once :
  forall (W : Type) (HW : io_Writer W) (os : World W)
         (scriptPath : string) (timeout : Z) (err : error),
    Start os (command os scriptPath) = Some err ->
    outcome (CmdRun os scriptPath timeout) = Returned (Some err)
    /\ trace (CmdRun os scriptPath timeout)
       = [E_exec_Command (strings_TrimRight scriptPath newline); E_os_Environ;
          E_StdoutPipe; E_StderrPipe; E_Start (command os scriptPath)]
    /\ forallb (fun e => negb (waits e)) (trace (CmdRun os scriptPath timeout))
       = true
    /\ (forall timeout' : Z,
          CmdRun os scriptPath timeout' = CmdRun os scriptPath timeout).
Proof.
  intros W HW os scriptPath timeout err Hstart.
  assert (Hrun : forall t : Z,
             CmdRun os scriptPath t =
             {| outcome := Returned (Some err);
                trace := [E_exec_Command (strings_TrimRight scriptPath newline);
                          E_os_Environ; E_StdoutPipe; E_StderrPipe;
                          E_Start (command os scriptPath)];
                run_stdout := Some (NewCapturingPassThroughWriter (os_Stdout os));
                run_stderr := NewCapturingPassThroughWriter (os_Stderr os) |}).
  { intro t. unfold CmdRun.
    destruct (StdoutPipe os) as [stdoutIn e_out].
    destruct (StderrPipe os) as [stderrIn e_err].
    cbv zeta. now rewrite Hstart. }
  rewrite Hrun. cbn [outcome trace].
  repeat split; try reflexivity.
  intro timeout'. now rewrite Hrun.
Qed.

Lemma C4_witness :
  let err := os_error "fork/exec /nonexistent/script.sh: no such file or directory" in
  Start missing_script_world (command missing_script_world "/nonexistent/script.sh")
  = Some err
  /\ outcome (CmdRun missing_script_world "/nonexistent/script.sh" 3)
     = Returned (Some err).
Proof.
  split.
  - reflexivity.
  - apply (@C4_launch_error_returned_at_once
             Terminal _ missing_script_world "/nonexistent/script.sh" 3).
    reflexivity.
Defined.

(** C6, as stated, fails: blanks before the path and blanks after it reach
    [exec.Command] untouched, also when a newline follows them. *)
Lemma C6_blanks_are_not_stripped :
  option_map Path
    (launched (trace (CmdRun hello_world "  /tmp/hello.sh " 3)))
  = Some "  /tmp/hello.sh "
  /\ option_map Path
       (launched (trace (CmdRun hello_world ("/tmp/hello.sh " ++ newline) 3)))
     = Some "/tmp/hello.sh "
  /\ option_map Path
       (launched (trace (CmdRun hello_world (newline ++ "/tmp/hello.sh") 3)))
     = Some (newline ++ "/tmp/hello.sh")%string.
Proof. repeat split; reflexivity. Qed.

(** C6, amended.  The path the process is launched with is the script path
    without the newlines at its end: the script path is that path followed
    by newlines only, and that path does not end in a newline.  Nothing
    else is removed. *)
Theorem C6_trailing_newlines_stripped :
  forall (W : Type) (HW : io_Writer W) (os : World W)
         (scriptPath : string) (timeout : Z),
  exists (name : string) (k : nat),
    option_map Path (launched (trace (CmdRun os scriptPath timeout))) = Some name
    /\ option_map Args (launched (trace (CmdRun os scriptPath timeout)))
       = Some [name]
    /\ scriptPath = (name ++ newlines k)%string
    /\ ends_with_newline name = false.
Proof.
  intros W HW os scriptPath timeout.
  destruct (TrimRight_newline scriptPath) as [k [Hsplit Hend]].
  exists (strings_TrimRight scriptPath newline), k.
  rewrite launched_CmdRun. cbn. auto.
Qed.

(** C8.  The child is started with [Setpgid] set, so it leads a process
    group of its own.  When the timer case of the [select] runs, [CmdRun]
    asks [Getpgid] for the group of the child's process id; given the group
    [pgid] it makes one more system call, [Kill] of signal 15 aimed at
    [- pgid], that is at the whole group and not at the child alone.  No
    other signal is sent, and none when [Getpgid] fails. *)
Theorem C8_deadline_signals_the_group :
  forall (W : Type) (HW : io_Writer W) (os : World W)
         (scriptPath : string) (timeout : Z)
         (out err : CapturingPassThroughWriter W * (Z * option error))
         (drained : bool),
    Start os (command os scriptPath) = None ->
    stdout_drain os = Some out ->
    stderr_drain os = Some err ->
    race os (timer (effective_timeout timeout)) = DeadlineFirst drained ->
    option_map Attr (launched (trace (CmdRun os scriptPath timeout)))
    = Some (Some {| Setpgid := true |})
    /\ syscalls (trace (CmdRun os scriptPath timeout))
       = E_Getpgid (Process_Pid os)
         :: match Getpgid os (Process_Pid os) with
            | (pgid, None) => [E_Kill (wrap64 (- pgid)) 15]
            | (_, Some _) => []
            end
    /\ (forall pgid : Z,
          Getpgid os (Process_Pid os) = (pgid, None) ->
          - 2 ^ 63 < pgid < 2 ^ 63 ->
          syscalls (trace (CmdRun os scriptPath timeout))
          = [E_Getpgid (Process_Pid os); E_Kill (- pgid) 15]).
Proof.
  intros W HW os scriptPath timeout out err drained Hstart Hout Herr Hrace.
  assert (Hsys : syscalls (trace (CmdRun os scriptPath timeout))
                 = E_Getpgid (Process_Pid os)
                   :: match Getpgid os (Process_Pid os) with
                      | (pgid, None) => [E_Kill (wrap64 (- pgid)) 15]
                      | (_, Some _) => []
                      end).
  { rewrite (@CmdRun_started _ _ os scriptPath timeout out err Hstart Hout Herr).
    cbv zeta. rewrite Hrace.
    destruct (Getpgid os (Process_Pid os)) as [pgid [e|]]; [reflexivity |].
    destruct (Kill os (wrap64 (- pgid)) 15); [reflexivity |].
    now rewrite syscalls_finish. }
  split; [| split].
  - now rewrite launched_CmdRun.
  - exact Hsys.
  - intros pgid Hpgid Hrange. rewrite Hsys, Hpgid.
    now rewrite wrap64_small by lia.
Qed.

Lemma C8_witness :
  Start sleeper_world (command sleeper_world "/tmp/sleep.sh") = None
  /\ race sleeper_world (timer (effective_timeout 1)) = DeadlineFirst false
  /\ Getpgid sleeper_world (Process_Pid sleeper_world) = (4242, None)
  /\ syscalls (trace (CmdRun sleeper_world "/tmp/sleep.sh" 1))
     = [E_Getpgid 4242; E_Kill (-4242) 15].
Proof.
  split; [reflexivity |]. split; [reflexivity |]. split; [reflexivity |].
  apply (@C8_deadline_signals_the_group
           Terminal _ sleeper_world "/tmp/sleep.sh" 1
           ({| buf := text "tick"; w := {| shown := text "tick" |} |}, (4, None))
           ({| buf := []; w := {| shown := [] |} |}, (0, None))
           false);
    reflexivity.
Defined.

(** C1, as stated, fails: the deadline fires, the signal is delivered, and
    [CmdRun] returns nil, which is what it returns for a script that
    exits 0. *)
Lemma C1_timed_out_returns_nil_as_success :
  race sleeper_world (timer (effective_timeout 1)) = DeadlineFirst false
  /\ syscalls (trace (CmdRun sleeper_world "/tmp/sleep.sh" 1))
     = [E_Getpgid 4242; E_Kill (-4242) 15]
  /\ Kill sleeper_world (-4242) 15 = None
  /\ outcome (CmdRun sleeper_world "/tmp/sleep.sh" 1) = Returned None
  /\ race hello_world (timer (effective_timeout 1)) = ExitFirst
  /\ Wait hello_world = None
  /\ outcome (CmdRun hello_world "/tmp/hello.sh" 1) = Returned None
  /\ outcome (CmdRun sleeper_world "/tmp/sleep.sh" 1)
     = outcome (CmdRun (exiting_cleanly sleeper_world) "/tmp/sleep.sh" 1).
Proof. repeat split; reflexivity. Qed.

(** C1, amended.  When the timer case of the [select] runs: an error of
    [Getpgid] or of [Kill] is returned as it is; when the signal is
    delivered, [CmdRun] goes on to the lines it also runs after a clean
    exit and returns nil, or the capture error if a drain error has been
    stored by then.  With the goroutine's copy over, that is the value
    returned for the same process exiting 0 before the deadline. *)
Theorem C1_deadline_result :
  forall (W : Type) (HW : io_Writer W) (os : World W)
         (scriptPath : string) (timeout : Z)
         (out err : CapturingPassThroughWriter W * (Z * option error))
         (drained : bool),
    Start os (command os scriptPath) = None ->
    stdout_drain os = Some out ->
    stderr_drain os = Some err ->
    race os (timer (effective_timeout timeout)) = DeadlineFirst drained ->
    outcome (CmdRun os scriptPath timeout)
    = match Getpgid os (Process_Pid os) with
      | (_, Some e) => Returned (Some e)
      | (pgid, None) =>
          match Kill os (wrap64 (- pgid)) 15 with
          | Some e => Returned (Some e)
          | None =>
              Returned
                (if not_nil (if drained then snd (snd out) else None)
                    || not_nil (snd (snd err))
                 then Some (fmt_Errorf "failed to capture stdout or stderr")
                 else None)
          end
      end
    /\ outcome (CmdRun (exiting_cleanly os) scriptPath timeout)
       = Returned
           (if not_nil (snd (snd out)) || not_nil (snd (snd err))
            then Some (fmt_Errorf "failed to capture stdout or stderr")
            else None).
Proof.
  intros W HW os scriptPath timeout out err drained Hstart Hout Herr Hrace.
  split.
  - rewrite (@CmdRun_started _ _ os scriptPath timeout out err Hstart Hout Herr). cbv zeta.
    rewrite Hrace.
    destruct (Getpgid os (Process_Pid os)) as [pgid [e|]]; [reflexivity |].
    destruct (Kill os (wrap64 (- pgid)) 15); [reflexivity |].
    apply outcome_finish.
  - rewrite (@CmdRun_started _ _ (exiting_cleanly os) scriptPath timeout out err
               Hstart Hout Herr).
    cbn. apply outcome_finish.
Qed.

Lemma C1_witness :
  Start kill_fails_world (command kill_fails_world "/tmp/sleep.sh") = None
  /\ race kill_fails_world (timer (effective_timeout 1)) = DeadlineFirst false
  /\ Kill kill_fails_world (-4242) 15 = Some (os_error "no such process")
  /\ outcome (CmdRun kill_fails_world "/tmp/sleep.sh" 1)
     = Returned (Some (os_error "no such process")).
Proof.
  split; [reflexivity |]. split; [reflexivity |]. split; [reflexivity |].
  apply (@C1_deadline_result
           Terminal _ kill_fails_world "/tmp/sleep.sh" 1
           ({| buf := text "tick"; w := {| shown := text "tick" |} |}, (4, None))
           ({| buf := []; w := {| shown := [] |} |}, (0, None))
           false);
    reflexivity.
Defined.

(** C9, as stated, fails: two scripts that print different bytes and both
    exit with status 1 give the caller the very same value, an error that
    carries the exit status and none of the output.  The bytes are in the
    local writers, which [CmdRun] does not return. *)
Lemma C9_output_is_not_returned :
  outcome (CmdRun (exit1_world "first") "/tmp/x.sh" 3)
  = Returned (Some (fmt_Errorf "process finished with error = exit status 1"))
  /\ outcome (CmdRun (exit1_world "second") "/tmp/x.sh" 3)
     = Returned (Some (fmt_Errorf "process finished with error = exit status 1"))
  /\ option_map CapturingPassThroughWriter_Bytes
       (run_stdout (CmdRun (exit1_world "first") "/tmp/x.sh" 3))
     = Some (text "first")
  /\ option_map CapturingPassThroughWriter_Bytes
       (run_stdout (CmdRun (exit1_world "second") "/tmp/x.sh" 3))
     = Some (text "second").
Proof. repeat split; reflexivity. Qed.

(** C9, amended.  When the process has started, [done] delivers before the
    timer and [cmd.Wait] reports an error, [CmdRun] returns a new error
    whose text is "process finished with error = " followed by the text of
    that error, whatever the drains reported.  What the child wrote has
    been copied to the parent's streams and into the two local writers;
    the returned error is all the caller gets. *)
Theorem C9_exit_error_is_wrapped :
  forall (W : Type) (HW : io_Writer W) (os : World W)
         (scriptPath : string) (timeout : Z)
         (out err : CapturingPassThroughWriter W * (Z * option error))
         (status : error),
    Start os (command os scriptPath) = None ->
    stdout_drain os = Some out ->
    stderr_drain os = Some err ->
    race os (timer (effective_timeout timeout)) = ExitFirst ->
    Wait os = Some status ->
    outcome (CmdRun os scriptPath timeout)
    = Returned (Some (fmt_Errorf
        ("process finished with error = " ++ Error status)%string))
    /\ run_stdout (CmdRun os scriptPath timeout) = Some (fst out)
    /\ run_stderr (CmdRun os scriptPath timeout) = fst err.
Proof.
  intros W HW os scriptPath timeout out err status
         Hstart Hout Herr Hrace Hwait.
  rewrite (@CmdRun_started _ _ os scriptPath timeout out err Hstart Hout Herr).
  cbv zeta. rewrite Hrace, Hwait. repeat split; reflexivity.
Qed.

Lemma C9_witness :
  Start (exit1_world "first") (command (exit1_world "first") "/tmp/x.sh") = None
  /\ race (exit1_world "first") (timer (effective_timeout 3)) = ExitFirst
  /\ Wait (exit1_world "first") = Some (os_error "exit status 1")
  /\ (outcome (CmdRun (exit1_world "first") "/tmp/x.sh" 3)
      = Returned (Some (fmt_Errorf "process finished with error = exit status 1"))
      /\ run_stdout (CmdRun (exit1_world "first") "/tmp/x.sh" 3)
         = Some {| buf := text "first"; w := {| shown := text "first" |} |}
      /\ run_stderr (CmdRun (exit1_world "first") "/tmp/x.sh" 3)
         = {| buf := []; w := {| shown := [] |} |}).
Proof.
  split; [reflexivity |]. split; [reflexivity |]. split; [reflexivity |].
  apply (@C9_exit_error_is_wrapped
           Terminal _ (exit1_world "first") "/tmp/x.sh" 3
           ({| buf := text "first"; w := {| shown := text "first" |} |}, (5, None))
           ({| buf := []; w := {| shown := [] |} |}, (0, None))
           (os_error "exit status 1"));
    reflexivity.
Defined.

(** C10.  The errors of [cmd.StdoutPipe] and [cmd.StderrPipe] are dropped:
    the call is the same whatever they are.  [cmd.Start] is called all the
    same, and when it succeeds the goroutine is started with the reader
    [StdoutPipe] returned, nil when it failed; if that reader is not nil
    the copy of standard error is started with the reader [StderrPipe]
    returned, nil when it failed.  A copy from a nil reader ends in a
    panic, not in a returned error. *)
Theorem C10_pipe_errors_are_dropped :
  forall (W : Type) (HW : io_Writer W) (os : World W)
         (scriptPath : string) (timeout : Z)
         (stdoutIn stderrIn : option Reader) (e_out e_err : option error),
    StdoutPipe os = (stdoutIn, e_out) ->
    StderrPipe os = (stderrIn, e_err) ->
    Start os (command os scriptPath) = None ->
    (forall e1 e2 : option error,
        CmdRun (pipe_errors os e1 e2) scriptPath timeout
        = CmdRun os scriptPath timeout)
    /\ launched (trace (CmdRun os scriptPath timeout))
       = Some (command os scriptPath)
    /\ nth_error (trace (CmdRun os scriptPath timeout)) 6 = Some (E_go stdoutIn)
    /\ (stdoutIn = None ->
        outcome (CmdRun os scriptPath timeout) = Panicked
        /\ List.length (trace (CmdRun os scriptPath timeout)) = 7%nat)
    /\ (stdoutIn <> None ->
        nth_error (trace (CmdRun os scriptPath timeout)) 7
        = Some (E_io_Copy stderrIn)
        /\ (stderrIn = None ->
            outcome (CmdRun os scriptPath timeout) = Panicked
            /\ List.length (trace (CmdRun os scriptPath timeout)) = 8%nat)).
Proof.
  intros W HW os scriptPath timeout stdoutIn stderrIn e_out e_err
         Hso Hse Hstart.
  split; [| split; [| split; [| split]]].
  - intros e1 e2. unfold CmdRun, pipe_errors, command. cbn.
    rewrite Hso, Hse. reflexivity.
  - apply launched_CmdRun.
  - unfold CmdRun, finish. rewrite Hso, Hse, Hstart.
    split_cases; reflexivity.
  - intros ->. unfold CmdRun. rewrite Hso, Hse, Hstart.
    split; reflexivity.
  - intro Hsome. destruct stdoutIn as [r|]; [| contradiction].
    split.
    + unfold CmdRun, finish, goroutine. rewrite Hso, Hse, Hstart.
      cbn [io_Copy].
      destruct (copyBuffer _ r 0) as [so [no eo]]. split_cases; reflexivity.
    + intros ->. unfold CmdRun, goroutine. rewrite Hso, Hse, Hstart.
      cbn [io_Copy].
      destruct (copyBuffer _ r 0) as [so [no eo]]. split; reflexivity.
Qed.

Lemma C10_witness :
  StdoutPipe no_stdout_pipe_world
  = (None, Some (os_error "pipe: too many open files"))
  /\ Start no_stdout_pipe_world (command no_stdout_pipe_world "/tmp/x.sh") = None
  /\ nth_error (trace (CmdRun no_stdout_pipe_world "/tmp/x.sh" 3)) 6
     = Some (E_go None)
  /\ outcome (CmdRun no_stdout_pipe_world "/tmp/x.sh" 3) = Panicked.
Proof.
  split; [reflexivity |]. split; [reflexivity |].
  pose proof (@C10_pipe_errors_are_dropped
                Terminal _ no_stdout_pipe_world "/tmp/x.sh" 3
                None (Some []) (Some (os_error "pipe: too many open files")) None
                eq_refl eq_refl eq_refl) as [_ [_ [Hgo [Hnil _]]]].
  split; [exact Hgo | exact (proj1 (Hnil eq_refl))].
Defined.

(** The same for standard error: the nil reader reaches [io.Copy]. *)
Example stderr_pipe_error_is_dropped :
  nth_error (trace (CmdRun no_stderr_pipe_world "/tmp/x.sh" 3)) 7
  = Some (E_io_Copy None)
  /\ outcome (CmdRun no_stderr_pipe_world "/tmp/x.sh" 3) = Panicked.
Proof. split; reflexivity. Qed.

(** C3, where the code departs from it.  In every call the [select] is
    entered directly after the copy of standard error, made by the caller
    itself, has returned.  For a script that sleeps past its deadline of
    one second with its pipes open, [CmdRun] first copies standard error to
    its end, which comes when the script exits, and only then arms the
    timer: the exit is found at once, no signal is sent and the call
    returns nil. *)
Lemma C3_race_entered_after_stderr_drain :
  (forall (W : Type) (HW : io_Writer W) (os : World W)
          (scriptPath : string) (timeout : Z),
      select_follows_drain None (trace (CmdRun os scriptPath timeout)) = true)
  /\ trace (CmdRun overrunning_world "/tmp/sleep10.sh" 1)
     = [E_exec_Command "/tmp/sleep10.sh"; E_os_Environ; E_StdoutPipe;
        E_StderrPipe;
        E_Start (command overrunning_world "/tmp/sleep10.sh");
        E_Printf (newline ++ "Starting the exection of the script: " ++ newline
                  ++ "/tmp/sleep10.sh with timeout: 1s" ++ newline)%string;
        E_go (Some []); E_io_Copy (Some []); E_select 1000000000;
        E_Printf ("Execution of the script finished successfully"
                  ++ newline)%string]
  /\ syscalls (trace (CmdRun overrunning_world "/tmp/sleep10.sh" 1)) = []
  /\ outcome (CmdRun overrunning_world "/tmp/sleep10.sh" 1) = Returned None.
Proof.
  split; [| repeat split; reflexivity].
  intros W HW os scriptPath timeout. apply select_follows_drain_CmdRun.
Qed.

(** ** Fidelity of a clean run *)

(** Copying a pipe without read errors into a writer whose destination is
    a terminal: buffer and terminal both grow by the chunks, in order. *)
Lemma copyBuffer_chunked (chunks : list bytes) :
  forall (cw : CapturingPassThroughWriter Terminal) (written : Z),
    copyBuffer cw (chunked chunks) written
    = ({| buf := buf cw ++ List.concat chunks;
          w := {| shown := shown (w cw) ++ List.concat chunks |} |},
       (written + len (List.concat chunks), None)).
Proof.
  induction chunks as [|p chunks IH]; intros cw written.
  - cbn. rewrite !app_nil_r, Z.add_0_r. now destruct cw as [b [t]].
  - cbn [chunked map copyBuffer List.concat].
    fold (chunked chunks).
    destruct (Z.ltb_spec 0 (len p)) as [Hpos | Hzero].
    + cbn [Write CapturingPassThroughWriter_io_Writer
             CapturingPassThroughWriter_Write Buffer_Write Terminal_io_Writer
             fst snd].
      replace ((len p <? 0) || (len p <? len p)) with false
        by (symmetry; apply orb_false_iff; split; apply Z.ltb_ge; lia).
      rewrite Z.eqb_refl. cbn [negb].
      rewrite IH. cbn [buf w shown].
      unfold len. rewrite !length_app, Nat2Z.inj_add, <- !app_assoc.
      now rewrite Z.add_assoc.
    + assert (p = []) as ->.
      { destruct p; [reflexivity | unfold len in Hzero; cbn in Hzero; lia]. }
      rewrite IH. reflexivity.
Qed.

(** A script whose output arrives without read errors, in a world whose
    parent streams are terminals, and which exits 0 before the deadline:
    [CmdRun] returns nil, and at that point the two local writers hold
    exactly the bytes the script wrote to each stream, which are also what
    the parent's streams received. *)
Theorem clean_exit_captures_all_output :
  forall (os : World Terminal) (scriptPath : string) (timeout : Z)
         (outs errs : list bytes) (e_out e_err : option error),
    StdoutPipe os = (Some (chunked outs), e_out) ->
    StderrPipe os = (Some (chunked errs), e_err) ->
    Start os (command os scriptPath) = None ->
    race os (timer (effective_timeout timeout)) = ExitFirst ->
    Wait os = None ->
    outcome (CmdRun os scriptPath timeout) = Returned None
    /\ run_stdout (CmdRun os scriptPath timeout)
       = Some {| buf := List.concat outs;
                 w := {| shown := shown (os_Stdout os) ++ List.concat outs |} |}
    /\ run_stderr (CmdRun os scriptPath timeout)
       = {| buf := List.concat errs;
            w := {| shown := shown (os_Stderr os) ++ List.concat errs |} |}.
Proof.
  intros os scriptPath timeout outs errs e_out e_err
         Hso Hse Hstart Hrace Hwait.
  assert (Hout : stdout_drain os
                 = Some ({| buf := List.concat outs;
                            w := {| shown := shown (os_Stdout os)
                                             ++ List.concat outs |} |},
                         (len (List.concat outs), None))).
  { unfold stdout_drain. rewrite Hso. cbn [fst io_Copy].
    now rewrite copyBuffer_chunked. }
  assert (Herr : stderr_drain os
                 = Some ({| buf := List.concat errs;
                            w := {| shown := shown (os_Stderr os)
                                             ++ List.concat errs |} |},
                         (len (List.concat errs), None))).
  { unfold stderr_drain. rewrite Hse. cbn [fst io_Copy].
    now rewrite copyBuffer_chunked. }
  rewrite (@CmdRun_started _ _ os scriptPath timeout _ _ Hstart Hout Herr).
  cbv zeta. rewrite Hrace, Hwait. repeat split; reflexivity.
Qed.

Lemma clean_exit_witness :
  StdoutPipe hello_world = (Some (chunked [text ("hello" ++ newline)]), None)
  /\ race hello_world (timer (effective_timeout 3)) = ExitFirst
  /\ Wait hello_world = None
  /\ (outcome (CmdRun hello_world "/tmp/hello.sh" 3) = Returned None
      /\ run_stdout (CmdRun hello_world "/tmp/hello.sh" 3)
         = Some {| buf := text ("hello" ++ newline);
                   w := {| shown := text ("hello" ++ newline) |} |}
      /\ run_stderr (CmdRun hello_world "/tmp/hello.sh" 3)
         = {| buf := []; w := {| shown := [] |} |}).
Proof.
  split; [reflexivity |]. split; [reflexivity |]. split; [reflexivity |].
  apply (@clean_exit_captures_all_output
           hello_world "/tmp/hello.sh" 3
           [text ("hello" ++ newline)] [] None None);
    reflexivity.
Defined.

(** ** A clean exit, and a destination that fails *)

(** When the process has started and exits 0 before the deadline, [CmdRun]
    returns nil if both drains ended without error, and the error "failed
    to capture stdout or stderr" if either of them reported one. *)
Theorem clean_exit_result :
  forall (W : Type) (HW : io_Writer W) (os : World W)
         (scriptPath : string) (timeout : Z)
         (out err : CapturingPassThroughWriter W * (Z * option error)),
    Start os (command os scriptPath) = None ->
    stdout_drain os = Some out ->
    stderr_drain os = Some err ->
    race os (timer (effective_timeout timeout)) = ExitFirst ->
    Wait os = None ->
    outcome (CmdRun os scriptPath timeout)
    = Returned (if not_nil (snd (snd out)) || not_nil (snd (snd err))
                then Some (fmt_Errorf "failed to capture stdout or stderr")
                else None)
    /\ syscalls (trace (CmdRun os scriptPath timeout)) = [].
Proof.
  intros W HW os scriptPath timeout out err Hstart Hout Herr Hrace Hwait.
  rewrite (@CmdRun_started _ _ os scriptPath timeout out err Hstart Hout Herr).
  cbv zeta. rewrite Hrace, Hwait. split.
  - apply outcome_finish.
  - now rewrite syscalls_finish.
Qed.

Lemma clean_exit_result_witness :
  Start hello_world (command hello_world "/tmp/hello.sh") = None
  /\ race hello_world (timer (effective_timeout 0)) = ExitFirst
  /\ Wait hello_world = None
  /\ outcome (CmdRun hello_world "/tmp/hello.sh" 0) = Returned None.
Proof.
  split; [reflexivity |]. split; [reflexivity |]. split; [reflexivity |].
  apply (@clean_exit_result
           Terminal _ hello_world "/tmp/hello.sh" 0
           ({| buf := text ("hello" ++ newline);
               w := {| shown := text ("hello" ++ newline) |} |}, (6, None))
           ({| buf := []; w := {| shown := [] |} |}, (0, None)));
    reflexivity.
Defined.

(** When the destination reports an error for a chunk, the copy into the
    writer stops there with that error: the chunk is in the buffer in
    full, and nothing that the pipe delivers later is read. *)
Theorem forwarding_error_ends_the_drain :
  forall (W : Type) (HW : io_Writer W) (cw : CapturingPassThroughWriter W)
         (p : bytes) (er : option error) (rest : Reader) (written : Z)
         (dst : W) (n : Z) (e : error),
    0 < len p ->
    Write (w cw) p = (dst, (n, Some e)) ->
    copyBuffer cw ((p, er) :: rest) written
    = ({| buf := buf cw ++ p; w := dst |},
       (written + (if (n <? 0) || (len p <? n) then 0 else n), Some e)).
Proof.
  intros W HW cw p er rest written dst n e Hpos Hwrite.
  cbn [copyBuffer].
  destruct (Z.ltb_spec 0 (len p)) as [_ | Hle]; [| lia].
  change (Write cw p) with (fst (CapturingPassThroughWriter_Write cw p)).
  unfold CapturingPassThroughWriter_Write, Buffer_Write.
  rewrite Hwrite. cbn [fst snd].
  destruct ((n <? 0) || (len p <? n)); reflexivity.
Qed.

Lemma forwarding_error_witness :
  0 < len (text "hello")
  /\ copyBuffer (NewCapturingPassThroughWriter {| stored := []; room := 2 |})
       [(text "hello", None); (text "world", None)] 0
     = ({| buf := text "hello"; w := {| stored := text "he"; room := 0 |} |},
        (2, Some (os_error "no space left on device"))).
Proof.
  split; [reflexivity |].
  apply (@forwarding_error_ends_the_drain
           Disk _ (NewCapturingPassThroughWriter {| stored := []; room := 2 |})
           (text "hello") None [(text "world", None)] 0
           {| stored := text "he"; room := 0 |} 2
           (os_error "no space left on device"));
    reflexivity.
Defined.

(** * The report helpers *)

(** ** Ascending order *)

Section SortFacts.
Context {A : Type} (less_eq : A -> A -> bool).
Hypothesis less_eq_total :
  forall a b : A, less_eq a b = true \/ less_eq b a = true.
Hypothesis less_eq_trans :
  forall a b c : A,
    less_eq a b = true -> less_eq b c = true -> less_eq a c = true.

Let le (a b : A) : Prop := less_eq a b = true.

Lemma insert_ascending_perm (x : A) (l : list A) :
  Permutation (allure_report.insert_ascending less_eq x l) (x :: l).
Proof.
  induction l as [|y rest IH]; cbn.
  - apply Permutation_refl.
  - destruct (less_eq x y).
    + apply Permutation_refl.
    + eapply Permutation_trans; [apply perm_skip, IH | apply perm_swap].
Qed.

Lemma sort_ascending_perm (l : list A) :
  Permutation (allure_report.sort_ascending less_eq l) l.
Proof.
  induction l as [|x rest IH]; cbn.
  - apply Permutation_refl.
  - eapply Permutation_trans; [apply insert_ascending_perm |].
    now apply perm_skip.
Qed.

Lemma insert_ascending_sorted (x : A) (l : list A) :
  StronglySorted le l ->
  StronglySorted le (allure_report.insert_ascending less_eq x l).
Proof.
  induction l as [|y rest IH]; intro Hsorted; cbn.
  - constructor; [constructor | constructor].
  - apply StronglySorted_inv in Hsorted as [Hrest Hy].
    destruct (less_eq x y) eqn:Hxy.
    + constructor; [constructor; assumption |].
      constructor; [exact Hxy |].
      eapply Forall_impl; [| exact Hy].
      intros z Hyz. unfold le in *. eapply less_eq_trans; eassumption.
    + constructor; [now apply IH |].
      assert (Hyx : le y x).
      { destruct (less_eq_total x y) as [H | H]; [congruence | exact H]. }
      eapply (Permutation_Forall (P := le y)).
      * apply Permutation_sym, insert_ascending_perm.
      * constructor; assumption.
Qed.

Lemma sort_ascending_sorted (l : list A) :
  StronglySorted le (allure_report.sort_ascending less_eq l).
Proof.
  induction l as [|x rest IH]; cbn.
  - constructor.
  - now apply insert_ascending_sorted.
Qed.

(** Two ascending arrangements of the same elements are the same list,
    provided that elements of it that are below each other are equal. *)
Lemma ascending_unique (l : list A) :
  forall l' : list A,
    StronglySorted le l ->
    StronglySorted le l' ->
    Permutation l l' ->
    (forall a b : A, In a l -> In b l -> le a b -> le b a -> a = b) ->
    l = l'.
Proof.
  induction l as [|a rest IH]; intros l' Hl Hl' Hperm Hanti.
  - apply Permutation_nil in Hperm. now subst.
  - destruct l' as [|b rest'].
    + apply Permutation_sym, Permutation_nil in Hperm. discriminate.
    + apply StronglySorted_inv in Hl as [Hrest Ha].
      apply StronglySorted_inv in Hl' as [Hrest' Hb].
      assert (Hab : a = b).
      { assert (Hin_a : In a (b :: rest'))
          by (eapply Permutation_in; [exact Hperm | now left]).
        assert (Hin_b : In b (a :: rest))
          by (eapply Permutation_in;
              [apply Permutation_sym; exact Hperm | now left]).
        destruct Hin_a as [Heq | Hin_a]; [now subst |].
        destruct Hin_b as [Heq | Hin_b]; [now subst |].
        rewrite Forall_forall in Ha, Hb.
        apply Hanti; [now left | now right | apply Ha, Hin_b | apply Hb, Hin_a]. }
      subst b. f_equal.
      apply IH; try assumption.
      * now apply Permutation_cons_inv in Hperm.
      * intros x y Hx Hy. apply Hanti; now right.
Qed.

Lemma sort_ascending_order_free (l l' : list A) :
  Permutation l l' ->
  (forall a b : A, In a l -> In b l -> le a b -> le b a -> a = b) ->
  allure_report.sort_ascending less_eq l
  = allure_report.sort_ascending less_eq l'.
Proof.
  intros Hperm Hanti.
  apply ascending_unique; try apply sort_ascending_sorted.
  - eapply Permutation_trans; [apply sort_ascending_perm |].
    eapply Permutation_trans; [exact Hperm |].
    apply Permutation_sym, sort_ascending_perm.
  - intros a b Ha Hb. apply Hanti.
    + eapply Permutation_in; [apply sort_ascending_perm | exact Ha].
    + eapply Permutation_in; [apply sort_ascending_perm | exact Hb].
Qed.

End SortFacts.

(** Sorting by a key is sorting the keys. *)
Lemma sort_ascending_map {A B : Type} (f : A -> B) (less_eq : B -> B -> bool)
    (l : list A) :
  map f (allure_report.sort_ascending (fun a b => less_eq (f a) (f b)) l)
  = allure_report.sort_ascending less_eq (map f l).
Proof.
  induction l as [|x rest IH]; cbn; [reflexivity |].
  rewrite <- IH.
  generalize (allure_report.sort_ascending
                (fun a b => less_eq (f a) (f b)) rest) as sorted.
  induction sorted as [|y more IHs]; cbn; [reflexivity |].
  destruct (less_eq (f x) (f y)); cbn; [reflexivity | now rewrite IHs].
Qed.

(** The order of strings. *)
Lemma Ascii_compare_refl (c : ascii) : Ascii.compare c c = Eq.
Proof. unfold Ascii.compare. apply N.compare_refl. Qed.

Lemma String_compare_trans_le (s1 : string) :
  forall s2 s3 : string,
    String.compare s1 s2 <> Gt -> String.compare s2 s3 <> Gt ->
    String.compare s1 s3 <> Gt.
Proof.
  induction s1 as [|c1 r1 IH]; intros [|c2 r2] [|c3 r3]; cbn;
    try congruence.
  unfold Ascii.compare.
  destruct (N.compare_spec (N_of_ascii c1) (N_of_ascii c2)) as [E12 | L12 | G12];
    destruct (N.compare_spec (N_of_ascii c2) (N_of_ascii c3)) as [E23 | L23 | G23];
    try congruence; intros H12 H23.
  - rewrite E12, E23, N.compare_refl. now apply (IH r2).
  - rewrite E12. now apply N.compare_lt_iff in L23 as ->.
  - rewrite <- E23. now apply N.compare_lt_iff in L12 as ->.
  - assert (L13 : (N_of_ascii c1 < N_of_ascii c3)%N) by lia.
    now apply N.compare_lt_iff in L13 as ->.
Qed.

Lemma String_leb_le (s1 s2 : string) :
  String.leb s1 s2 = true <-> String.compare s1 s2 <> Gt.
Proof.
  unfold String.leb. destruct (String.compare s1 s2); split; congruence.
Qed.

Lemma String_leb_trans (a b c : string) :
  String.leb a b = true -> String.leb b c = true -> String.leb a c = true.
Proof.
  rewrite !String_leb_le. apply String_compare_trans_le.
Qed.

Lemma String_leb_append (p a b : string) :
  String.leb (p ++ a) (p ++ b) = String.leb a b.
Proof.
  unfold String.leb.
  induction p as [|c p IH]; cbn; [reflexivity |].
  now rewrite Ascii_compare_refl.
Qed.

Lemma Z_leb_total (a b : Z) : (a <=? b) = true \/ (b <=? a) = true.
Proof. destruct (Z.leb_spec a b); [now left | right; apply Z.leb_le; lia]. Qed.

Lemma Z_leb_trans (a b c : Z) :
  (a <=? b) = true -> (b <=? c) = true -> (a <=? c) = true.
Proof. rewrite !Z.leb_le. lia. Qed.

Lemma sort_Strings_order_free (l l' : list string) :
  Permutation l l' ->
  allure_report.sort_Strings l = allure_report.sort_Strings l'.
Proof.
  intro Hperm.
  apply (@sort_ascending_order_free _ String.leb String.leb_total
           String_leb_trans l l' Hperm).
  intros a b _ _. apply String.leb_antisym.
Qed.

Lemma StronglySorted_weaken {A : Type} (R S : A -> A -> Prop) (l : list A) :
  (forall a b : A, In a l -> In b l -> R a b -> S a b) ->
  StronglySorted R l -> StronglySorted S l.
Proof.
  induction l as [|x rest IH]; intros Himpl Hsorted; [constructor |].
  apply StronglySorted_inv in Hsorted as [Hrest Hx].
  constructor.
  - apply IH; [| exact Hrest].
    intros a b Ha Hb. apply Himpl; now right.
  - rewrite Forall_forall in *. intros y Hy.
    apply Himpl; [now left | now right | now apply Hx].
Qed.

Lemma StronglySorted_NoDup_strict (l : list Z) :
  StronglySorted Z.le l -> NoDup l -> StronglySorted Z.lt l.
Proof.
  induction l as [|x rest IH]; intros Hsorted Hnodup; [constructor |].
  apply StronglySorted_inv in Hsorted as [Hrest Hx].
  inversion Hnodup as [|? ? Hnotin Hnodup']; subst.
  constructor; [now apply IH |].
  rewrite Forall_forall in *. intros y Hy.
  specialize (Hx y Hy).
  assert (x <> y) by (intros ->; contradiction).
  lia.
Qed.

(** ** Status codes, headers *)

(** [getExpectedStatusCodes] returns the keys of the map, each once, in
    ascending order (strictly ascending, the keys of a map being
    distinct), and the result does not depend on the order in which the
    map is iterated. *)
Theorem getExpectedStatusCodes_sorted_keys :
  forall responses : list (Z * string),
    StronglySorted Z.le (allure_report.getExpectedStatusCodes responses)
    /\ Permutation (allure_report.getExpectedStatusCodes responses)
                   (map fst responses)
    /\ (NoDup (map fst responses) ->
        StronglySorted Z.lt (allure_report.getExpectedStatusCodes responses))
    /\ (forall responses' : list (Z * string),
          Permutation responses responses' ->
          allure_report.getExpectedStatusCodes responses'
          = allure_report.getExpectedStatusCodes responses).
Proof.
  intro responses.
  unfold allure_report.getExpectedStatusCodes, allure_report.sort_Ints.
  assert (Hsorted : StronglySorted Z.le
                      (allure_report.sort_ascending Z.leb (map fst responses))).
  { eapply StronglySorted_weaken;
      [| apply (sort_ascending_sorted Z.leb Z_leb_total Z_leb_trans)].
    intros a b _ _ Hab. now apply Z.leb_le. }
  assert (Hperm : Permutation
                    (allure_report.sort_ascending Z.leb (map fst responses))
                    (map fst responses))
    by apply sort_ascending_perm.
  split; [exact Hsorted | split; [exact Hperm | split]].
  - intro Hnodup. apply StronglySorted_NoDup_strict; [exact Hsorted |].
    eapply Permutation_NoDup; [apply Permutation_sym; exact Hperm | exact Hnodup].
  - intros responses' Hperm'. symmetry.
    apply (@sort_ascending_order_free _ Z.leb Z_leb_total Z_leb_trans).
    + now apply Permutation_map.
    + intros a b _ _ Hab Hba.
      apply Z.leb_le in Hab. apply Z.leb_le in Hba. lia.
Qed.

(** Codes 404, 200 and 500, iterated in two different orders. *)
Example getExpectedStatusCodes_run :
  allure_report.getExpectedStatusCodes [(404, "a"); (200, "b"); (500, "c")]
  = [200; 404; 500]
  /\ allure_report.getExpectedStatusCodes [(500, "c"); (404, "a"); (200, "b")]
     = [200; 404; 500]
  /\ allure_report.formatStatusCodes [200; 404; 500] = "200, 404, 500".
Proof. repeat split; reflexivity. Qed.

(** [formatHeaders] gives the same text whatever the order in which the
    map of headers is iterated. *)
Theorem formatHeaders_order_free :
  forall headers headers' : list (string * string),
    Permutation headers headers' ->
    allure_report.formatHeaders headers = allure_report.formatHeaders headers'.
Proof.
  intros headers headers' Hperm. unfold allure_report.formatHeaders.
  f_equal. apply sort_Strings_order_free. now apply Permutation_map.
Qed.

Lemma formatHeaders_witness :
  Permutation [("Accept", "*/*"); ("Host", "example.org")]
              [("Host", "example.org"); ("Accept", "*/*")]
  /\ allure_report.formatHeaders [("Accept", "*/*"); ("Host", "example.org")]
     = allure_report.formatHeaders [("Host", "example.org"); ("Accept", "*/*")].
Proof.
  split; [apply perm_swap |].
  apply (@formatHeaders_order_free
           [("Accept", "*/*"); ("Host", "example.org")]
           [("Host", "example.org"); ("Accept", "*/*")]).
  apply perm_swap.
Defined.

(** [formatResponseHeaders] gives the same text whatever the order in
    which the map of response headers is iterated; the values of one
    header are a slice and keep their order. *)
Theorem formatResponseHeaders_order_free :
  forall headers headers' : list (string * list string),
    Permutation headers headers' ->
    allure_report.formatResponseHeaders headers
    = allure_report.formatResponseHeaders headers'.
Proof.
  intros headers headers' Hperm. unfold allure_report.formatResponseHeaders.
  f_equal. apply sort_Strings_order_free. now apply Permutation_flat_map.
Qed.

Lemma formatResponseHeaders_witness :
  Permutation [("Set-Cookie", ["b=2"; "a=1"]); ("Age", ["0"])]
              [("Age", ["0"]); ("Set-Cookie", ["b=2"; "a=1"])]
  /\ allure_report.formatResponseHeaders
       [("Set-Cookie", ["b=2"; "a=1"]); ("Age", ["0"])]
     = allure_report.formatResponseHeaders
         [("Age", ["0"]); ("Set-Cookie", ["b=2"; "a=1"])].
Proof.
  split; [apply perm_swap |].
  apply (@formatResponseHeaders_order_free
           [("Set-Cookie", ["b=2"; "a=1"]); ("Age", ["0"])]
           [("Age", ["0"]); ("Set-Cookie", ["b=2"; "a=1"])]).
  apply perm_swap.
Defined.

(** [formatCookies] does not sort: the same two cookies, iterated in the
    two possible orders, give two different texts. *)
Example formatCookies_follows_iteration_order :
  allure_report.formatCookies [("a", "1"); ("b", "2")]
  = ("a=1" ++ newline ++ "b=2")%string
  /\ allure_report.formatCookies [("b", "2"); ("a", "1")]
     = ("b=2" ++ newline ++ "a=1")%string.
Proof. split; reflexivity. Qed.

(** ** Mock services *)

Lemma sort_Strings_ascending (l : list string) :
  allure_report.ascending (allure_report.sort_Strings l).
Proof.
  apply (sort_ascending_sorted String.leb String.leb_total String_leb_trans).
Qed.

Lemma ascending_prefixed (p : string) (l : list string) :
  allure_report.ascending l ->
  allure_report.ascending (map (fun ep => (p ++ ep)%string) l).
Proof.
  unfold allure_report.ascending.
  induction l as [|x rest IH]; intro Hsorted; cbn; [constructor |].
  apply StronglySorted_inv in Hsorted as [Hrest Hx].
  constructor; [now apply IH |].
  rewrite Forall_forall in *. intros y Hy.
  apply in_map_iff in Hy as [z [<- Hz]].
  rewrite String_leb_append. now apply Hx.
Qed.

Lemma string_keys_perm (m m' : list (allure_report.Value * allure_report.Value)) :
  Permutation m m' ->
  Permutation (allure_report.string_keys m) (allure_report.string_keys m').
Proof.
  induction 1 as [| [k v] l l' _ IH | [k1 v1] [k2 v2] l | l1 l2 l3 _ IH1 _ IH2].
  - apply Permutation_refl.
  - destruct k; cbn; try exact IH. now apply perm_skip.
  - destruct k1, k2; cbn; try apply Permutation_refl; apply perm_swap.
  - eapply Permutation_trans; eassumption.
Qed.

Lemma extractEndpoints_uriVary
    (def : list (allure_report.Value * allure_report.Value)) :
  allure_report.extractEndpoints "uriVary" def
  = map (fun ep => (allure_report.base_path def ++ ep)%string)
        match allure_report.as_map (allure_report.index def "uris") with
        | Some uris => allure_report.sort_Strings (allure_report.string_keys uris)
        | None => []
        end.
Proof.
  unfold allure_report.extractEndpoints, allure_report.base_path. cbn.
  destruct (allure_report.as_string (allure_report.index def "basePath"))
    as [basePath|].
  - destruct basePath as [|c rest]; cbn; [now rewrite map_id | reflexivity].
  - cbn. now rewrite map_id.
Qed.

Lemma extractEndpoints_methodVary
    (def : list (allure_report.Value * allure_report.Value)) :
  allure_report.extractEndpoints "methodVary" def
  = match allure_report.as_map (allure_report.index def "methods") with
    | Some methods =>
        allure_report.sort_Strings (allure_report.string_keys methods)
    | None => []
    end.
Proof. reflexivity. Qed.

(** For the strategies [uriVary] and [methodVary], [extractEndpoints]
    returns the endpoints in ascending order, for [uriVary] also after the
    base path has been put in front of each.  The endpoints of a [uriVary]
    mock are the string keys of [uris], each once, behind the base path;
    and neither list depends on the order in which the map of uris or of
    methods is iterated. *)
Theorem extractEndpoints_vary_sorted_order_free :
  forall def : list (allure_report.Value * allure_report.Value),
    allure_report.ascending (allure_report.extractEndpoints "uriVary" def)
    /\ allure_report.ascending (allure_report.extractEndpoints "methodVary" def)
    /\ (forall uris : list (allure_report.Value * allure_report.Value),
          allure_report.index def "uris" = allure_report.VMap uris ->
          Permutation (allure_report.extractEndpoints "uriVary" def)
                      (map (fun ep => (allure_report.base_path def ++ ep)%string)
                           (allure_report.string_keys uris)))
    /\ (forall (def' uris uris' :
                  list (allure_report.Value * allure_report.Value)),
          allure_report.index def "uris" = allure_report.VMap uris ->
          allure_report.index def' "uris" = allure_report.VMap uris' ->
          Permutation uris uris' ->
          allure_report.index def' "basePath"
          = allure_report.index def "basePath" ->
          allure_report.extractEndpoints "uriVary" def'
          = allure_report.extractEndpoints "uriVary" def)
    /\ (forall (def' methods methods' :
                  list (allure_report.Value * allure_report.Value)),
          allure_report.index def "methods" = allure_report.VMap methods ->
          allure_report.index def' "methods" = allure_report.VMap methods' ->
          Permutation methods methods' ->
          allure_report.extractEndpoints "methodVary" def'
          = allure_report.extractEndpoints "methodVary" def).
Proof.
  intro def. rewrite extractEndpoints_uriVary, extractEndpoints_methodVary.
  split; [| split; [| split; [| split]]].
  - apply ascending_prefixed.
    destruct (allure_report.as_map _);
      [apply sort_Strings_ascending | constructor].
  - destruct (allure_report.as_map _);
      [apply sort_Strings_ascending | constructor].
  - intros uris ->. cbn. apply Permutation_map, sort_ascending_perm.
  - intros def' uris uris' Huris Huris' Hperm Hbase.
    rewrite extractEndpoints_uriVary. unfold allure_report.base_path.
    rewrite Hbase, Huris, Huris'. cbn. f_equal.
    apply sort_Strings_order_free, string_keys_perm.
    now apply Permutation_sym.
  - intros def' methods methods' Hm Hm' Hperm.
    rewrite extractEndpoints_methodVary, Hm, Hm'. cbn.
    apply sort_Strings_order_free, string_keys_perm.
    now apply Permutation_sym.
Qed.

(** A [uriVary] mock with two uris and a base path; an integer key is
    passed over. *)
Example extractEndpoints_uriVary_run :
  allure_report.extractEndpoints "uriVary"
    [(allure_report.VString "basePath", allure_report.VString "/api");
     (allure_report.VString "uris",
      allure_report.VMap
        [(allure_report.VString "/users", allure_report.VNil);
         (allure_report.VOther 7, allure_report.VNil);
         (allure_report.VString "/orders", allure_report.VNil)])]
  = ["/api/orders"; "/api/users"].
Proof. reflexivity. Qed.

(** What [extractEndpoints] gives for the other strategies. *)
Example extractEndpoints_runs :
  allure_report.extractEndpoints "constant" [] = ["/"]
  /\ allure_report.extractEndpoints "file"
       [(allure_report.VString "filename",
         allure_report.VString "mocks/data/users.json")]
     = ["file: users.json"]
  /\ allure_report.extractEndpoints "basedOnRequest"
       [(allure_report.VString "uris",
         allure_report.VSlice
           [allure_report.VMap
              [(allure_report.VString "path", allure_report.VString "/a")];
            allure_report.VString "stray";
            allure_report.VMap []])]
     = ["/a"; "[conditional]"]
  /\ allure_report.extractEndpoints "sequence"
       [(allure_report.VString "sequence",
         allure_report.VSlice [allure_report.VNil; allure_report.VNil])]
     = ["[sequence: 2 steps]"]
  /\ allure_report.extractEndpoints "dropRequest" [] = ["-"]
  /\ allure_report.extractEndpoints "other" [] = [].
Proof. repeat split; reflexivity. Qed.

Lemma ServiceName_mock_info (serviceName : string) (def : allure_report.Value) :
  allure_report.ServiceName (allure_report.mock_info serviceName def)
  = serviceName.
Proof.
  unfold allure_report.mock_info.
  destruct (allure_report.as_map def) as [defMap|]; [| reflexivity].
  destruct (allure_report.lookup defMap "strategy") as [[]|]; reflexivity.
Qed.

Lemma NoDup_map_eq {A B : Type} (f : A -> B) (l : list A) :
  NoDup (map f l) ->
  forall a b : A, In a l -> In b l -> f a = f b -> a = b.
Proof.
  induction l as [|x rest IH]; intros Hnodup a b Ha Hb Hf; [contradiction |].
  cbn in Hnodup. inversion Hnodup as [|? ? Hnotin Hrest]; subst.
  destruct Ha as [-> | Ha], Hb as [-> | Hb].
  - reflexivity.
  - exfalso. apply Hnotin. rewrite Hf. now apply in_map.
  - exfalso. apply Hnotin. rewrite <- Hf. now apply in_map.
  - now apply IH.
Qed.

(** [extractMocksInfo] returns one entry for each service of the map, made
    from that service's definition, and the entries are in ascending order
    of service name.  The keys of a map being distinct, the result does
    not depend on the order in which the map is iterated. *)
Theorem extractMocksInfo_one_per_service_sorted :
  forall mocks : list (string * allure_report.Value),
    map allure_report.ServiceName (allure_report.extractMocksInfo mocks)
    = allure_report.sort_Strings (map fst mocks)
    /\ Permutation (allure_report.extractMocksInfo mocks)
         (map (fun entry => allure_report.mock_info (fst entry) (snd entry))
              mocks)
    /\ (NoDup (map fst mocks) ->
        forall mocks' : list (string * allure_report.Value),
          Permutation mocks mocks' ->
          allure_report.extractMocksInfo mocks'
          = allure_report.extractMocksInfo mocks).
Proof.
  intro mocks.
  assert (Hnames :
            forall l : list (string * allure_report.Value),
              map allure_report.ServiceName
                (map (fun entry =>
                        allure_report.mock_info (fst entry) (snd entry)) l)
              = map fst l).
  { intro l. rewrite map_map. apply map_ext.
    intros [n d]. apply ServiceName_mock_info. }
  assert (Hgen :
            forall l : list (string * allure_report.Value),
              allure_report.extractMocksInfo l
              = allure_report.sort_ascending
                  (fun a b => String.leb (allure_report.ServiceName a)
                                         (allure_report.ServiceName b))
                  (map (fun entry =>
                          allure_report.mock_info (fst entry) (snd entry)) l)).
  { intros [|e l]; reflexivity || (unfold allure_report.extractMocksInfo,
      allure_report.count; cbn [List.length];
      now rewrite Nat2Z.inj_succ, (proj2 (Z.eqb_neq _ 0)) by lia). }
  rewrite !Hgen. split; [| split].
  - rewrite (sort_ascending_map allure_report.ServiceName String.leb).
    now rewrite Hnames.
  - apply sort_ascending_perm.
  - intros Hnodup mocks' Hperm. rewrite Hgen. symmetry.
    apply sort_ascending_order_free.
    + intros a b. apply String.leb_total.
    + intros a b c. apply String_leb_trans.
    + now apply Permutation_map.
    + intros a b Ha Hb Hab Hba.
      apply (NoDup_map_eq allure_report.ServiceName
               (map (fun entry =>
                       allure_report.mock_info (fst entry) (snd entry))
                    mocks)); try assumption.
      * now rewrite Hnames.
      * now apply String.leb_antisym.
Qed.

(** Two services, one of them with a definition that is not a map. *)
Example extractMocksInfo_run :
  allure_report.extractMocksInfo
    [("users",
      allure_report.VMap
        [(allure_report.VString "strategy", allure_report.VString "nop")]);
     ("billing", allure_report.VString "oops")]
  = [{| allure_report.ServiceName := "billing";
        allure_report.Strategy := "unknown";
        allure_report.Endpoints := [] |};
     {| allure_report.ServiceName := "users";
        allure_report.Strategy := "nop";
        allure_report.Endpoints := ["-"] |}]
  /\ allure_report.extractMocksInfo [] = [].
Proof. split; reflexivity. Qed.

(** ** Fixtures *)

Lemma append_empty (a b : string) : (a ++ b)%string = "" -> a = "" /\ b = "".
Proof. destruct a; cbn; [now split | discriminate]. Qed.

Lemma concat_empty (sep x : string) (xs : list string) :
  String.concat sep (x :: xs) = "" -> x = "".
Proof.
  destruct xs as [|y ys]; cbn; [trivial |].
  intro H. now apply append_empty in H.
Qed.

(** [formatFixturesInfo] returns the empty text only when there are no
    fixtures of either kind, so its caller adds the fixture step whenever
    the test has fixtures; and when there are plain fixtures, those of the
    several databases are left out of the text. *)
Theorem formatFixturesInfo_empty_iff :
  forall (fixtures : list string) (multiDb : list allure_report.Fixture),
    (allure_report.formatFixturesInfo fixtures multiDb = ""
     <-> fixtures = [] /\ multiDb = [])
    /\ (fixtures <> [] ->
        allure_report.formatFixturesInfo fixtures multiDb
        = allure_report.formatFixturesInfo fixtures []).
Proof.
  intros fixtures multiDb.
  unfold allure_report.formatFixturesInfo, allure_report.count.
  destruct fixtures as [|f fs]; cbn [List.length Z.of_nat Z.ltb Z.compare].
  - split; [| congruence].
    destruct multiDb as [|m ms]; cbn [List.length Z.of_nat Z.ltb Z.compare].
    + split; [now split | reflexivity].
    + split; [| intros [_ H]; discriminate].
      intro H. unfold allure_report.strings_Join in H. cbn [map] in H.
      apply concat_empty, append_empty in H as [_ H]. discriminate.
  - split; [| reflexivity].
    split; [| intros [H _]; discriminate].
    intro H. apply append_empty in H as [_ H]. discriminate.
Qed.

Example formatFixturesInfo_runs :
  allure_report.formatFixturesInfo ["users.yml"; "orders.yml"] []
  = "users.yml, orders.yml (2 files)"
  /\ allure_report.formatFixturesInfo []
       [{| allure_report.DbName := "main";
           allure_report.Files := ["a.yml"; "b.yml"] |};
        {| allure_report.DbName := "audit"; allure_report.Files := [] |}]
     = "main: 2 files; audit: 0 files"
  /\ allure_report.formatFixturesInfo [] [] = "".
Proof. repeat split; reflexivity. Qed.

(** ** Errors by category *)

Section MapFacts.
Context {K V : Type} (eqb : K -> K -> bool).
Hypothesis eqb_eq : forall a b : K, eqb a b = true <-> a = b.

Lemma map_get_set_same (m : list (K * V)) (k : K) (v : V) :
  allure_report.map_get eqb (allure_report.map_set eqb m k v) k = Some v.
Proof.
  induction m as [|[k' v'] rest IH]; cbn.
  - now rewrite (proj2 (eqb_eq k k) eq_refl).
  - destruct (eqb k' k) eqn:Hk; cbn.
    + now rewrite (proj2 (eqb_eq k k) eq_refl).
    + now rewrite Hk.
Qed.

Lemma map_get_set_other (m : list (K * V)) (k k' : K) (v : V) :
  k <> k' ->
  allure_report.map_get eqb (allure_report.map_set eqb m k v) k'
  = allure_report.map_get eqb m k'.
Proof.
  intro Hne.
  assert (Hkk' : eqb k k' = false).
  { destruct (eqb k k') eqn:H; [| reflexivity].
    apply eqb_eq in H. contradiction. }
  induction m as [|[k0 v0] rest IH]; cbn.
  - now rewrite Hkk'.
  - destruct (eqb k0 k) eqn:Hk0; cbn.
    + apply eqb_eq in Hk0. subst k0. now rewrite Hkk'.
    + destruct (eqb k0 k'); [reflexivity | exact IH].
Qed.

Lemma map_set_not_nil (m : list (K * V)) (k : K) (v : V) :
  allure_report.map_set eqb m k v <> [].
Proof.
  destruct m as [|[k' v'] rest]; cbn; [discriminate |].
  destruct (eqb k' k); discriminate.
Qed.

End MapFacts.

Section CategorizeFacts.
Variables (error ErrorCategory : Type).
Variable category_eqb : ErrorCategory -> ErrorCategory -> bool.
Variable ErrorCategoryResponseBody : ErrorCategory.
Variable as_CheckError : error -> option (ErrorCategory * string).
Hypothesis category_eqb_eq :
  forall a b : ErrorCategory, category_eqb a b = true <-> a = b.

#[local] Abbreviation by_identifier := (allure_report.by_identifier category_eqb).
#[local] Abbreviation errors_of := (allure_report.errors_of category_eqb).
#[local] Abbreviation add_error := (allure_report.add_error category_eqb).
#[local] Abbreviation bucket :=
  (allure_report.bucket ErrorCategoryResponseBody as_CheckError).
#[local] Abbreviation categorizeErrors :=
  (allure_report.categorizeErrors category_eqb ErrorCategoryResponseBody
     as_CheckError).

Lemma by_identifier_add_error
    (categories : allure_report.Categories error ErrorCategory)
    (category category' : ErrorCategory) (identifier : string) (err : error) :
  by_identifier (add_error categories category identifier err) category'
  = if category_eqb category category'
    then allure_report.map_set String.eqb (by_identifier categories category)
           identifier (errors_of categories category identifier ++ [err])
    else by_identifier categories category'.
Proof.
  unfold allure_report.add_error.
  assert (Hsame :
            by_identifier
              match allure_report.map_get category_eqb categories category with
              | None => allure_report.map_set category_eqb categories category []
              | Some _ => categories
              end category
            = by_identifier categories category).
  { unfold allure_report.by_identifier.
    destruct (allure_report.map_get category_eqb categories category) eqn:Hget.
    - now rewrite Hget.
    - now rewrite (map_get_set_same category_eqb category_eqb_eq). }
  assert (Herrs :
            forall i : string,
              errors_of
                match allure_report.map_get category_eqb categories category with
                | None =>
                    allure_report.map_set category_eqb categories category []
                | Some _ => categories
                end category i
              = errors_of categories category i).
  { intro i. unfold allure_report.errors_of. now rewrite Hsame. }
  rewrite Hsame, Herrs.
  destruct (category_eqb category category') eqn:Hc.
  - apply category_eqb_eq in Hc. subst category'.
    unfold allure_report.by_identifier at 1.
    now rewrite (map_get_set_same category_eqb category_eqb_eq).
  - assert (Hne : category <> category').
    { intro Heq. apply category_eqb_eq in Heq. congruence. }
    unfold allure_report.by_identifier at 1.
    rewrite (map_get_set_other category_eqb category_eqb_eq _ _ Hne).
    destruct (allure_report.map_get category_eqb categories category) eqn:Hget.
    + reflexivity.
    + now rewrite (map_get_set_other category_eqb category_eqb_eq _ _ Hne).
Qed.

Lemma errors_of_add_error
    (categories : allure_report.Categories error ErrorCategory)
    (category category' : ErrorCategory) (identifier identifier' : string)
    (err : error) :
  errors_of (add_error categories category identifier err) category' identifier'
  = if category_eqb category category' && String.eqb identifier identifier'
    then errors_of categories category identifier ++ [err]
    else errors_of categories category' identifier'.
Proof.
  unfold allure_report.errors_of at 1. rewrite by_identifier_add_error.
  destruct (category_eqb category category') eqn:Hc; cbn [andb];
    [| reflexivity].
  apply category_eqb_eq in Hc. subst category'.
  destruct (String.eqb identifier identifier') eqn:Hi.
  - apply String.eqb_eq in Hi. subst identifier'.
    now rewrite (map_get_set_same String.eqb String.eqb_eq).
  - apply String.eqb_neq in Hi.
    now rewrite (map_get_set_other String.eqb String.eqb_eq _ _ Hi).
Qed.

Lemma categorizeErrors_snoc (errs : list error) (err : error) :
  categorizeErrors (errs ++ [err])
  = add_error (categorizeErrors errs) (fst (bucket err)) (snd (bucket err)) err.
Proof.
  unfold allure_report.categorizeErrors, allure_report.bucket.
  rewrite fold_left_app. cbn [fold_left].
  destruct (as_CheckError err) as [[category identifier]|]; reflexivity.
Qed.

Lemma errors_of_categorizeErrors (errs : list error)
    (category : ErrorCategory) (identifier : string) :
  errors_of (categorizeErrors errs) category identifier
  = filter (allure_report.in_bucket category_eqb ErrorCategoryResponseBody
              as_CheckError category identifier) errs.
Proof.
  induction errs as [|err errs IH] using rev_ind; [reflexivity |].
  rewrite categorizeErrors_snoc, errors_of_add_error, filter_app.
  cbn [filter]. unfold allure_report.in_bucket at 2.
  destruct (category_eqb (fst (bucket err)) category) eqn:Hc; cbn [andb].
  - destruct (String.eqb (snd (bucket err)) identifier) eqn:Hi.
    + apply category_eqb_eq in Hc. apply String.eqb_eq in Hi.
      rewrite Hc, Hi. now rewrite IH.
    + now rewrite app_nil_r.
  - now rewrite app_nil_r.
Qed.

Lemma category_present_categorizeErrors (errs : list error)
    (category : ErrorCategory) :
  (0 <? allure_report.count (by_identifier (categorizeErrors errs) category))
  = existsb (fun err => category_eqb (fst (bucket err)) category) errs.
Proof.
  induction errs as [|err errs IH] using rev_ind; [reflexivity |].
  rewrite categorizeErrors_snoc, by_identifier_add_error, existsb_app.
  cbn [existsb]. rewrite orb_false_r.
  destruct (category_eqb (fst (bucket err)) category) eqn:Hc.
  - rewrite orb_true_r.
    pose proof (map_set_not_nil String.eqb
                  (by_identifier (categorizeErrors errs) (fst (bucket err)))
                  (snd (bucket err))
                  (errors_of (categorizeErrors errs) (fst (bucket err))
                     (snd (bucket err)) ++ [err])) as Hnil.
    destruct (allure_report.map_set _ _ _ _); [contradiction |].
    unfold allure_report.count. cbn [List.length].
    apply Z.ltb_lt. lia.
  - now rewrite orb_false_r.
Qed.

End CategorizeFacts.

(** [categorizeErrors] loses and duplicates nothing: what it files under a
    category and an identifier is the errors of the input with that
    category and identifier, in their order, an error that is not a check
    error counting as a response-body error with the empty identifier.
    A category has an entry exactly when some error falls in it. *)
Theorem categorizeErrors_buckets :
  forall (error ErrorCategory : Type)
         (category_eqb : ErrorCategory -> ErrorCategory -> bool)
         (ErrorCategoryResponseBody : ErrorCategory)
         (as_CheckError : error -> option (ErrorCategory * string)),
    (forall a b : ErrorCategory, category_eqb a b = true <-> a = b) ->
    forall (errs : list error) (category : ErrorCategory) (identifier : string),
      allure_report.errors_of category_eqb
        (allure_report.categorizeErrors category_eqb ErrorCategoryResponseBody
           as_CheckError errs)
        category identifier
      = filter (allure_report.in_bucket category_eqb ErrorCategoryResponseBody
                  as_CheckError category identifier) errs
      /\ (0 <? allure_report.count
                 (allure_report.by_identifier category_eqb
                    (allure_report.categorizeErrors category_eqb
                       ErrorCategoryResponseBody as_CheckError errs)
                    category))
         = existsb
             (fun err =>
                category_eqb
                  (fst (allure_report.bucket ErrorCategoryResponseBody
                          as_CheckError err))
                  category)
             errs.
Proof.
  intros error ErrorCategory category_eqb ErrorCategoryResponseBody
         as_CheckError Heqb errs category identifier.
  split.
  - now apply errors_of_categorizeErrors.
  - now apply category_present_categorizeErrors.
Qed.

Lemma categorizeErrors_witness :
  (forall a b : string, String.eqb a b = true <-> a = b)
  /\ allure_report.errors_of String.eqb
       (allure_report.categorizeErrors String.eqb "response_body"
          sample_as_CheckError
          [check_error "database" "0" "row count";
           plain_error "unexpected EOF";
           check_error "response_body" "" "field id";
           check_error "database" "0" "row 1"])
       "response_body" ""
     = [plain_error "unexpected EOF";
        check_error "response_body" "" "field id"].
Proof.
  split; [exact String.eqb_eq |].
  apply (@categorizeErrors_buckets
           sample_error string String.eqb "response_body" sample_as_CheckError
           String.eqb_eq
           [check_error "database" "0" "row count";
            plain_error "unexpected EOF";
            check_error "response_body" "" "field id";
            check_error "database" "0" "row 1"]
           "response_body" "").
Defined.

(** ** The dots of the coloured console *)

Lemma occurrences_append (c : ascii) (a b : string) :
  console_colored.occurrences c (a ++ b)
  = console_colored.occurrences c a + console_colored.occurrences c b.
Proof.
  induction a as [|c' a IH]; cbn; [reflexivity |]. rewrite IH. lia.
Qed.

Lemma dots_line_break (d : Z) :
  0 <= d ->
  (if Z.rem (d + 1) 80 =? 0 then 1 else 0) = (d + 1) / 80 - d / 80.
Proof.
  intro Hd. rewrite Z.rem_mod_nonneg by lia.
  destruct (Z.eqb_spec ((d + 1) mod 80) 0) as [H | H];
    Z.div_mod_to_equations; lia.
Qed.

(** In a console output that is not verbose, tests that pass are shown as
    dots: after any run of passing tests the counter has grown by their
    number, as many dots have been printed, and a line break has been
    printed after each dot that brought the counter to a multiple of 80,
    so every completed line holds 80 dots. *)
Theorem Process_prints_dots_in_lines_of_80 :
  forall (Result : Type) (Passed : Result -> bool)
         (renderResult : Result -> string * option error)
         (results : list Result) (o : console_colored.ConsoleColoredOutput),
    console_colored.verbose o = false ->
    forallb Passed results = true ->
    0 <= console_colored.dots o ->
    console_colored.dots o + Z.of_nat (List.length results) < 2 ^ 63 ->
    console_colored.dots
      (fst (console_colored.process_all Passed renderResult o results))
    = console_colored.dots o + Z.of_nat (List.length results)
    /\ console_colored.occurrences "."%char
         (snd (console_colored.process_all Passed renderResult o results))
       = Z.of_nat (List.length results)
    /\ console_colored.occurrences "010"%char
         (snd (console_colored.process_all Passed renderResult o results))
       = (console_colored.dots o + Z.of_nat (List.length results)) / 80
         - console_colored.dots o / 80.
Proof.
  intros Result Passed renderResult results.
  induction results as [|result rest IH]; intros o Hverbose Hpassed Hdots Hroom.
  - cbn. rewrite Z.add_0_r, Z.sub_diag. repeat split; reflexivity.
  - cbn [forallb] in Hpassed. apply andb_true_iff in Hpassed as [Hp Hrest].
    cbn [console_colored.process_all List.length] in *.
    rewrite Nat2Z.inj_succ in *.
    unfold console_colored.Process. rewrite Hp, Hverbose. cbn [negb orb].
    cbn [console_colored.dots console_colored.verbose].
    rewrite wrap64_small by lia.
    unfold console_colored.dotsPerLine.
    pose proof (dots_line_break Hdots) as Hbreak.
    set (o1 := {| console_colored.verbose := false;
                  console_colored.dots := console_colored.dots o + 1 |}).
    destruct (IH o1 eq_refl Hrest) as [IHd [IHdot IHnl]];
      [cbn; lia | cbn; lia |].
    cbn [console_colored.dots o1] in IHd, IHnl.
    replace (console_colored.dots o
             + Z.succ (Z.of_nat (Datatypes.length rest)))
      with (console_colored.dots o + 1 + Z.of_nat (Datatypes.length rest))
      by lia.
    assert (Hdot1 : console_colored.occurrences "."%char "." = 1)
      by reflexivity.
    assert (Hdot2 : console_colored.occurrences "."%char newline = 0)
      by reflexivity.
    assert (Hnl1 : console_colored.occurrences "010"%char "." = 0)
      by reflexivity.
    assert (Hnl2 : console_colored.occurrences "010"%char newline = 1)
      by reflexivity.
    destruct (Z.rem (console_colored.dots o + 1) 80 =? 0);
      destruct (console_colored.process_all Passed renderResult o1 rest)
        as [o2 more];
      cbn [fst snd] in *; rewrite !occurrences_append;
      rewrite ?Hdot1, ?Hdot2, ?Hnl1, ?Hnl2, IHd, IHdot, IHnl;
      repeat split; lia.
Qed.

Lemma Process_dots_witness :
  console_colored.verbose (console_colored.NewOutput false) = false
  /\ forallb fst (repeat (true, "ok") 81) = true
  /\ console_colored.dots
       (fst (console_colored.process_all fst sample_render
               (console_colored.NewOutput false) (repeat (true, "ok") 81)))
     = 81
  /\ console_colored.occurrences "010"%char
       (snd (console_colored.process_all fst sample_render
               (console_colored.NewOutput false) (repeat (true, "ok") 81)))
     = 1.
Proof.
  split; [reflexivity |]. split; [reflexivity |].
  pose proof (@Process_prints_dots_in_lines_of_80
                (bool * string) fst sample_render (repeat (true, "ok") 81)
                (console_colored.NewOutput false) eq_refl eq_refl)
    as Hrun.
  destruct Hrun as [Hdots [_ Hbreaks]].
  - discriminate.
  - reflexivity.
  - split; [exact Hdots | exact Hbreaks].
Defined.

(** ** The width of the timer *)

(** For every timeout up to 9223372036 seconds the timer is armed for the
    timeout in force, in nanoseconds, without wrapping around, and that is
    a positive time. *)
Theorem timer_exact_and_positive :
  forall timeout : Z,
    timeout <= 9223372036 ->
    timer (effective_timeout timeout) = effective_timeout timeout * 1000000000
    /\ 0 < timer (effective_timeout timeout).
Proof.
  intros timeout Hmax.
  assert (Hrange : 1 <= effective_timeout timeout <= 9223372036).
  { unfold effective_timeout. destruct (Z.leb_spec timeout 0); lia. }
  unfold timer, second. rewrite wrap64_small by lia. lia.
Qed.

Lemma timer_witness :
  9223372036 <= 9223372036
  /\ timer (effective_timeout 9223372036) = 9223372036000000000.
Proof.
  split; [discriminate |].
  apply (timer_exact_and_positive (timeout := 9223372036)). discriminate.
Defined.

(** One second more and the product no longer fits 64 bits: the timer is
    armed for a negative time. *)
Example timer_wraps_around :
  timer (effective_timeout 9223372037) = -9223372036709551616.
Proof. reflexivity. Qed.

(** ** The text of a list of status codes *)

From Stdlib Require Import DecimalPos DecimalZ.

Lemma occurrences_nonneg (c : ascii) (s : string) :
  0 <= console_colored.occurrences c s.
Proof.
  induction s as [|c' s IH]; cbn; [lia |].
  destruct (Ascii.eqb c' c); lia.
Qed.

Lemma fmt_d_digits (d : Decimal.uint) :
  console_colored.occurrences ","%char (NilEmpty.string_of_uint d) = 0.
Proof. induction d; cbn; auto. Qed.

Lemma fmt_d_no_comma (z : Z) :
  console_colored.occurrences ","%char (fmt_d z) = 0.
Proof.
  unfold fmt_d, NilZero.string_of_int, NilZero.string_of_uint.
  destruct (Z.to_int z) as [d | d]; destruct d; cbn [console_colored.occurrences];
    try reflexivity; cbn; apply fmt_d_digits.
Qed.

Lemma fmt_d_inj (a b : Z) : fmt_d a = fmt_d b -> a = b.
Proof.
  unfold fmt_d. intro H.
  assert (Hnonnil : forall z : Z,
             Z.to_int z <> Decimal.Pos Decimal.Nil
             /\ Z.to_int z <> Decimal.Neg Decimal.Nil).
  { intros [|p|p]; cbn; split; try discriminate;
      intros [= Hp]; now apply (Unsigned.to_uint_nonnil p). }
  apply (f_equal NilZero.int_of_string) in H.
  rewrite !NilZero.isi in H by apply Hnonnil.
  injection H as H. now apply DecimalZ.to_int_inj.
Qed.

Lemma fmt_d_not_empty (z : Z) : fmt_d z <> "".
Proof.
  unfold fmt_d, NilZero.string_of_int, NilZero.string_of_uint.
  destruct (Z.to_int z) as [d | d] eqn:Hz; [| discriminate].
  destruct d; try discriminate.
Qed.

(** A text without comma, followed by nothing or by a comma and more, can
    be read in one way only. *)
Lemma comma_free_head (x : string) :
  forall y r1 r2 : string,
    console_colored.occurrences ","%char x = 0 ->
    console_colored.occurrences ","%char y = 0 ->
    (r1 = "" \/ exists r, r1 = String ","%char r) ->
    (r2 = "" \/ exists r, r2 = String ","%char r) ->
    (x ++ r1)%string = (y ++ r2)%string ->
    x = y /\ r1 = r2.
Proof.
  induction x as [|c x IH]; intros [|c' y] r1 r2 Hx Hy Hr1 Hr2 Heq;
    cbn in Heq.
  - now split.
  - exfalso. pose proof (occurrences_nonneg ","%char y).
    destruct Hr1 as [-> | [r ->]]; [discriminate |].
    injection Heq as Hc _. subst c'.
    change (1 + console_colored.occurrences ","%char y = 0) in Hy. lia.
  - exfalso. pose proof (occurrences_nonneg ","%char x).
    destruct Hr2 as [-> | [r ->]]; [discriminate |].
    injection Heq as Hc _. subst c.
    change (1 + console_colored.occurrences ","%char x = 0) in Hx. lia.
  - injection Heq as <- Heq.
    cbn [console_colored.occurrences] in Hx, Hy.
    pose proof (occurrences_nonneg ","%char x).
    pose proof (occurrences_nonneg ","%char y).
    destruct (Ascii.eqb c ","%char); [lia |].
    destruct (IH y r1 r2) as [-> ->]; auto.
Qed.

Lemma formatStatusCodes_join (codes : list Z) :
  allure_report.formatStatusCodes codes
  = allure_report.strings_Join (map fmt_d codes) ", ".
Proof. destruct codes as [|a [|b rest]]; reflexivity. Qed.

Lemma strings_Join_cons (x : string) (xs : list string) (sep : string) :
  allure_report.strings_Join (x :: xs) sep
  = (x ++ match xs with
          | [] => ""
          | _ => sep ++ allure_report.strings_Join xs sep
          end)%string.
Proof.
  unfold allure_report.strings_Join. destruct xs; cbn; [| reflexivity].
  induction x; cbn; congruence.
Qed.

(** [formatStatusCodes] shows every list of codes differently: the text
    is that of no codes only for no codes, and two lists with the same
    text are the same list. *)
Theorem formatStatusCodes_injective :
  forall codes codes' : list Z,
    (allure_report.formatStatusCodes codes = "" <-> codes = [])
    /\ (allure_report.formatStatusCodes codes
        = allure_report.formatStatusCodes codes' <->
        codes = codes').
Proof.
  assert (Hempty : forall codes : list Z,
             allure_report.formatStatusCodes codes = "" -> codes = []).
  { intros [|a rest]; [reflexivity |].
    rewrite formatStatusCodes_join. cbn [map].
    rewrite strings_Join_cons. intro H.
    apply append_empty in H as [H _]. now apply fmt_d_not_empty in H. }
  assert (Hinj : forall codes codes' : list Z,
             allure_report.formatStatusCodes codes
             = allure_report.formatStatusCodes codes' -> codes = codes').
  { induction codes as [|a rest IH]; intros codes' H.
    - symmetry. apply Hempty. now rewrite <- H.
    - destruct codes' as [|b rest'].
      + now apply Hempty in H.
      + rewrite !formatStatusCodes_join in H. cbn [map] in H.
        rewrite !strings_Join_cons in H.
        apply comma_free_head in H as [Hab Htail];
          try apply fmt_d_no_comma.
        * apply fmt_d_inj in Hab. subst b. f_equal.
          apply IH. rewrite !formatStatusCodes_join.
          destruct rest as [|r1 rest], rest' as [|r2 rest'];
            cbn [map] in *; try reflexivity; try discriminate.
          now injection Htail.
        * destruct rest; cbn [map]; [now left | right; eexists; reflexivity].
        * destruct rest'; cbn [map]; [now left | right; eexists; reflexivity]. }
  intros codes codes'. split; split.
  - apply Hempty.
  - now intros ->.
  - apply Hinj.
  - now intros ->.
Qed.
